(** * Foundry trace viewer: the trace-text parser and the search

    A shallow embedding of the parser of the trace viewer component
    ([parseTraceFile], [assignStackIds], [parseTraceLines]) and of its
    search ([handleSearch] with the nested [findMatches]).

    The repository holds three copies of the component.  The TypeScript
    copy and its JavaScript twin thread a global line counter through
    [parseTraceLines]; they are modelled at top level.  The copy in
    [src/App.tsx] has no such counter; the two functions that differ are
    modelled in the module [AppTsx].  The line classifier, the tree
    builder, the section split, the stack-id pass and the search are the
    same text in all three.

    JavaScript strings are sequences of UTF-16 code units; they are
    modelled as lists of code units ([N]).  Trace objects are mutable and
    shared by reference between the root list, the parser's stack, the
    [children] arrays and the [parent] links, so they live in an explicit
    store: a list of records addressed by allocation index.  Recursion
    that follows the store is bounded by a fuel argument, and the
    theorems show that enough fuel always gives a result. *)

From Stdlib Require Import NArith Ascii String.
From stdpp Require Import base tactics option list numbers pretty sorting.

Local Open Scope N_scope.
Local Open Scope nat_scope.

(** ** Strings *)

Abbreviation jsstring := (list N).

(** An ASCII literal as a JavaScript string. *)
Definition str (s : string) : jsstring :=
  N_of_ascii <$> list_ascii_of_string s.

(** [WhiteSpace] and [LineTerminator] of ECMAScript: what [\s] matches and
    what [String.prototype.trim] removes. *)
Definition is_space (c : N) : bool :=
  ((9 <=? c) && (c <=? 13) || (c =? 32) || (c =? 0xA0) || (c =? 0x1680)
   || (0x2000 <=? c) && (c <=? 0x200A)
   || (c =? 0x2028) || (c =? 0x2029) || (c =? 0x202F) || (c =? 0x205F)
   || (c =? 0x3000) || (c =? 0xFEFF))%N.

(** What [.] does not match (no [s] flag). *)
Definition is_line_terminator (c : N) : bool :=
  ((c =? 10) || (c =? 13) || (c =? 0x2028) || (c =? 0x2029))%N.

(** The box-drawing characters of the glyph class (vertical bar, tee,
    corner), the dash and the arrow of return lines. *)
Definition glyph_bar : N := 0x2502%N.
Definition glyph_tee : N := 0x251C%N.
Definition glyph_corner : N := 0x2514%N.
Definition glyph_dash : N := 0x2500%N.
Definition arrow_left : N := 0x2190%N.

Definition is_glyph (c : N) : bool :=
  ((c =? glyph_bar) || (c =? glyph_tee) || (c =? glyph_corner))%N.
Definition is_dash (c : N) : bool := (c =? glyph_dash)%N.

(** [[A-Za-z0-9_]] *)
Definition is_ident (c : N) : bool :=
  ((65 <=? c) && (c <=? 90) || (97 <=? c) && (c <=? 122)
   || (48 <=? c) && (c <=? 57) || (c =? 95))%N.

Fixpoint take_while (p : N → bool) (s : jsstring) : jsstring :=
  match s with
  | c :: s' => if p c then c :: take_while p s' else []
  | [] => []
  end.

Fixpoint drop_while (p : N → bool) (s : jsstring) : jsstring :=
  match s with
  | c :: s' => if p c then drop_while p s' else s
  | [] => []
  end.

(** [s.trim()] *)
Definition trim (s : jsstring) : jsstring :=
  reverse (drop_while is_space (reverse (drop_while is_space s))).

(** [s.startsWith(p)], used to match literal text at a position. *)
Fixpoint starts_with (p s : jsstring) : bool :=
  match p, s with
  | [], _ => true
  | a :: p', b :: s' => (a =? b)%N && starts_with p' s'
  | _ :: _, [] => false
  end.

(** [s.includes(p)] *)
Fixpoint includes (s p : jsstring) : bool :=
  starts_with p s ||
  match s with
  | [] => false
  | _ :: s' => includes s' p
  end.

(** [s.split('\n')] *)
Fixpoint split_lines (s : jsstring) : list jsstring :=
  match s with
  | [] => [[]]
  | c :: s' =>
      if (c =? 10)%N then [] :: split_lines s'
      else match split_lines s' with
           | l :: ls => (c :: l) :: ls
           | [] => [[c]]
           end
  end.

(** Template-literal rendering of a line number. *)
Definition num_to_string (n : nat) : jsstring := str (pretty n).

(** ** The line classifier (first half of the loop body of
    [parseTraceLines]) *)

(** The match of the indentation pattern on a line: anchored at the start,
    white space, then any number of groups made of one glyph, an optional
    dash and white space.  Every quantifier is greedy and nothing follows
    the outer star, so the matcher never backtracks: it consumes white
    space, and a glyph, and a dash when it directly follows a glyph, for as
    long as it can.  [after_glyph] records
    that the previous character was a glyph, the only place where the
    optional dash is admitted. *)
Fixpoint indent_scan (after_glyph : bool) (s : jsstring) : jsstring :=
  match s with
  | [] => []
  | c :: s' =>
      if is_space c then c :: indent_scan false s'
      else if is_glyph c then c :: indent_scan true s'
      else if after_glyph && is_dash c then c :: indent_scan false s'
      else []
  end.

Definition indentMatch (line : jsstring) : jsstring := indent_scan false line.

(** The number of glyph matches in [indentPart] (zero when there is none). *)
Definition glyph_count (indentPart : jsstring) : nat :=
  length (filter (λ c, is_glyph c = true) indentPart).

(** The argument part of the call pattern, after the opening parenthesis:
    lazily any characters but line terminators, then a closing parenthesis. *)
Fixpoint closes (s : jsstring) : bool :=
  match s with
  | [] => false
  | c :: s' =>
      if (c =? 41)%N then true
      else if is_line_terminator c then false
      else closes s'
  end.

(** The call pattern (a name, two colons, a name, a parenthesised argument
    part) tried at the head of [s]: the two captured names.  A shorter name than the longest run can never
    be followed by ":" or "(", so only the longest runs are tried. *)
Definition match_call_at (s : jsstring) : option (jsstring * jsstring) :=
  let c := take_while is_ident s in
  let s1 := drop (length c) s in
  let f := take_while is_ident (drop 2 s1) in
  let s3 := drop (length f) (drop 2 s1) in
  if bool_decide (c = []) then None
  else if negb (starts_with (str "::") s1) then None
  else if bool_decide (f = []) then None
  else match s3 with
       | 40%N :: s4 => if closes s4 then Some (c, f) else None
       | _ => None
       end.

(** [content.match(...)]: the leftmost position where the pattern matches. *)
Fixpoint functionMatch (s : jsstring) : option (jsstring * jsstring) :=
  match match_call_at s with
  | Some r => Some r
  | None => match s with
            | [] => None
            | _ :: s' => functionMatch s'
            end
  end.

(** The chain of [if (content.includes(...))] tests. *)
Definition detect_callType (content : jsstring) : option jsstring :=
  if includes content (str "[staticcall]") then Some (str "staticcall")
  else if includes content (str "[call]") then Some (str "call")
  else if includes content (str "[delegatecall]") then Some (str "delegatecall")
  else None.

Definition return_marker : jsstring := arrow_left :: str " [Return]".
Definition stop_marker : jsstring := arrow_left :: str " [Stop]".

Definition detect_isReturn (content : jsstring) : bool :=
  includes content return_marker || includes content stop_marker.

(** ** Trace objects and the store *)

Abbreviation ref := nat (only parsing).

Record Trace := mkTrace {
  id : jsstring;
  content : jsstring;
  children : list ref;
  depth : nat;
  contractName : option jsstring;
  functionName : option jsstring;
  callType : option jsstring;
  isReturn : bool;
  raw : jsstring;
  rowIndex : nat;
  parent : option ref;
  stackId : option nat
}.

Abbreviation Heap := (list Trace).

Definition set_children (cs : list ref) (t : Trace) : Trace :=
  mkTrace (id t) (content t) cs (depth t) (contractName t) (functionName t)
          (callType t) (isReturn t) (raw t) (rowIndex t) (parent t) (stackId t).

Definition set_parent (p : option ref) (t : Trace) : Trace :=
  mkTrace (id t) (content t) (children t) (depth t) (contractName t)
          (functionName t) (callType t) (isReturn t) (raw t) (rowIndex t)
          p (stackId t).

Definition set_stackId (s : option nat) (t : Trace) : Trace :=
  mkTrace (id t) (content t) (children t) (depth t) (contractName t)
          (functionName t) (callType t) (isReturn t) (raw t) (rowIndex t)
          (parent t) s.

(** [`trace-${n}`] *)
Definition trace_id (n : nat) : jsstring := str "trace-" ++ num_to_string n.

(** Lines 143-192: from one line to the fresh trace object, or [None] when
    the line is skipped by one of the [continue]s.  The indentation pattern
    matches every line (possibly the empty prefix), so the [continue] on a
    failed match is never taken.  [lineId] is the counter before the
    increment; [rowIndex] reads it after. *)
Definition classifyLine (line : jsstring) (lineId : nat) : option Trace :=
  if bool_decide (trim line = []) then None
  else
    let indentPart := indentMatch line in
    let depth := glyph_count indentPart in
    let content := trim (drop (length indentPart) line) in
    if bool_decide (content = []) then None
    else
      let fm := functionMatch content in
      Some {| id := trace_id lineId;
              content := content;
              children := [];
              depth := depth;
              contractName := fst <$> fm;
              functionName := snd <$> fm;
              callType := detect_callType content;
              isReturn := detect_isReturn content;
              raw := content;
              rowIndex := S lineId;
              parent := None;
              stackId := None |}.

(** ** The tree builder (second half of the loop body, lines 194-209) *)

(** [parent.children.push(trace)] on the object at address [p]. *)
Definition push_child (h : Heap) (p c : ref) : Heap :=
  alter (λ t, set_children (children t ++ [c]) t) p h.

(** The variables of one run of [parseTraceLines], with the store. *)
Record PState := mkPState {
  heap : Heap;
  rootTraces : list ref;
  currentStack : list ref;
  lineId : nat
}.

(** The fresh object [t] is allocated at the end of the store, the counter
    has been advanced, and the object is linked according to its depth.
    In the second branch the index [depth - 1] is inside the sliced stack
    (see [attach_slice_defined]); the last branch is the fall-through of
    the [if] chain, where the object is referenced from nowhere. *)
Definition attach (st : PState) (t : Trace) : PState :=
  let r := length (heap st) in
  let h := heap st ++ [t] in
  let d := depth t in
  if bool_decide (d = 0) then
    mkPState h (rootTraces st ++ [r]) [r] (S (lineId st))
  else if bool_decide (d ≤ length (currentStack st)) then
    let cs := take d (currentStack st) in
    match cs !! (d - 1) with
    | Some p => mkPState (push_child h p r) (rootTraces st) (cs ++ [r])
                         (S (lineId st))
    | None => mkPState h (rootTraces st) cs (S (lineId st))
    end
  else if bool_decide (length (currentStack st) < d
                       ∧ 0 < length (currentStack st)) then
    match last (currentStack st) with
    | Some p => mkPState (push_child h p r) (rootTraces st)
                         (currentStack st ++ [r]) (S (lineId st))
    | None => mkPState h (rootTraces st) (currentStack st) (S (lineId st))
    end
  else mkPState h (rootTraces st) (currentStack st) (S (lineId st)).

(** One iteration of [for (let line of lines)]. *)
Definition parseLine (st : PState) (line : jsstring) : PState :=
  match classifyLine line (lineId st) with
  | None => st
  | Some t => attach st t
  end.

(** [parseTraceLines(lines, startLineId)], run on the store [h]: the store
    afterwards and the returned [rootTraces]. *)
Definition parseTraceLines_from (h : Heap) (lines : list jsstring)
    (startLineId : nat) : PState :=
  foldl parseLine (mkPState h [] [] startLineId) lines.

Definition parseTraceLines (h : Heap) (lines : list jsstring)
    (startLineId : nat) : Heap * list ref :=
  let st := parseTraceLines_from h lines startLineId in
  (heap st, rootTraces st).

(** ** The section aggregator *)

Definition section_marker : jsstring := str "Traces:".

(** [text.split(re)] for the marker pattern (the marker, then greedy white
    space): scan for the next match, cut the piece before it and go on
    after it.  A match is never empty, so every step consumes input and
    [fuel] above the length of [s] is never exhausted
    (see [split_sections_fuel]). *)
Fixpoint split_sections (fuel : nat) (s cur : jsstring) : list jsstring :=
  match fuel with
  | 0 => [cur ++ s]
  | S k =>
      if starts_with section_marker s then
        cur :: split_sections k
                 (drop_while is_space (drop (length section_marker) s)) []
      else match s with
           | [] => [cur]
           | c :: s' => split_sections k s' (cur ++ [c])
           end
  end.

(** [text.split(re).filter(Boolean)] *)
Definition traceSections (text : jsstring) : list jsstring :=
  filter (λ s, s ≠ []) (split_sections (S (length text)) text []).

(** [assignStackIds(traces, stackId)]: the recursion follows the store, so
    it is bounded by [fuel]; [None] is an exhausted bound or a dangling
    address. *)
Fixpoint assignStackIds (fuel : nat) (h : Heap) (traces : list ref)
    (sid : nat) : option Heap :=
  match fuel with
  | 0 => None
  | S k =>
      (fix each (l : list ref) (h : Heap) : option Heap :=
         match l with
         | [] => Some h
         | r :: l' =>
             let h1 := alter (set_stackId (Some sid)) r h in
             match h1 !! r with
             | None => None
             | Some t =>
                 match (if bool_decide (0 < length (children t))
                        then assignStackIds k h1 (children t) sid
                        else Some h1) with
                 | None => None
                 | Some h2 => each l' h2
                 end
             end
         end) traces h
  end.

(** [allTraces.forEach((trace, index) => ...)] *)
Fixpoint assignRoots (fuel : nat) (h : Heap) (traces : list ref)
    (index : nat) : option Heap :=
  match traces with
  | [] => Some h
  | r :: rest =>
      let h1 := alter (set_stackId (Some index)) r h in
      match h1 !! r with
      | None => None
      | Some t =>
          match assignStackIds fuel h1 (children t) index with
          | None => None
          | Some h2 => assignRoots fuel h2 rest (S index)
          end
      end
  end.

(** The variables of the section loop of [parseTraceFile]. *)
Record FState := mkFState {
  fheap : Heap;
  allTraces : list ref;
  globalLineId : nat
}.

(** One iteration of [for (let section of traceSections)]. *)
Definition parseSection (fs : FState) (section : jsstring) : FState :=
  let lines := split_lines section in
  let '(h, sectionTraces) := parseTraceLines (fheap fs) lines (globalLineId fs) in
  mkFState h (allTraces fs ++ sectionTraces) (globalLineId fs + length lines).

Definition parseSections (text : jsstring) : FState :=
  foldl parseSection (mkFState [] [] 0) (traceSections text).

(** [parseTraceFile], from the text read from the file to the forest handed
    to [setTraces]: the store and the top-level sequence. *)
Definition parseTraceFile (fuel : nat) (text : jsstring)
    : option (Heap * list ref) :=
  let fs := parseSections text in
  h ← assignRoots fuel (fheap fs) (allTraces fs) 0;
  Some (h, allTraces fs).

(** The variant in [src/App.tsx]: [parseTraceLines] takes no start value and
    begins every run at [lineId = 0]; [parseTraceFile] keeps no counter.
    Everything else is the same text. *)
Module AppTsx.

Definition parseTraceLines (h : Heap) (lines : list jsstring)
    : Heap * list ref :=
  let st := foldl parseLine (mkPState h [] [] 0) lines in
  (heap st, rootTraces st).

Definition parseSection (st : Heap * list ref) (section : jsstring)
    : Heap * list ref :=
  let lines := split_lines section in
  let '(h, sectionTraces) := parseTraceLines (fst st) lines in
  (h, snd st ++ sectionTraces).

Definition parseTraceFile (fuel : nat) (text : jsstring)
    : option (Heap * list ref) :=
  let st := foldl parseSection ([], []) (traceSections text) in
  h ← assignRoots fuel (fst st) (snd st) 0;
  Some (h, snd st).

End AppTsx.

(** ** The query engine *)

(** [matches.add(x)] on a set kept in insertion order. *)
Definition set_add (x : jsstring) (m : list jsstring) : list jsstring :=
  if bool_decide (x ∈ m) then m else m ++ [x].

Section Search.

(** [String.prototype.toLowerCase] follows the Unicode case tables, which
    are not part of the repository. *)
Variable toLowerCase : jsstring → jsstring.

(** The test of [findMatches] on one trace. *)
Definition content_matches (term : jsstring) (t : Trace) : bool :=
  includes (toLowerCase (content t)) (toLowerCase term).

(** [while (currentTrace && currentTrace.parent) ...] *)
Fixpoint addParents (fuel : nat) (h : Heap) (cur : ref)
    (matches : list jsstring) : option (list jsstring) :=
  match fuel with
  | 0 => None
  | S k =>
      t ← h !! cur;
      match parent t with
      | None => Some matches
      | Some p =>
          pt ← h !! p;
          addParents k h p (set_add (id pt) matches)
      end
  end.

(** [trace.children.forEach(child => { child.parent = trace; f(child) })]
    for the object at address [r] and its [children] array [l]. *)
Fixpoint forEach_child
    (f : ref → Heap * list jsstring → option (Heap * list jsstring))
    (r : ref) (l : list ref) (st : Heap * list jsstring)
    : option (Heap * list jsstring) :=
  match l with
  | [] => Some st
  | c :: l' =>
      st' ← f c (alter (set_parent (Some r)) c st.1, st.2);
      forEach_child f r l' st'
  end.

(** [findMatches(trace)], on the store and the [matches] set.  The
    recursion and the walk up the [parent] links follow the store, so both
    are bounded by [fuel]; [None] is an exhausted bound or a dangling
    address. *)
Fixpoint findMatches (fuel : nat) (term : jsstring) (r : ref)
    (st : Heap * list jsstring) : option (Heap * list jsstring) :=
  match fuel with
  | 0 => None
  | S k =>
      t ← st.1 !! r;
      m1 ← (if content_matches term t
            then addParents k st.1 r (set_add (id t) st.2)
            else Some st.2);
      forEach_child (findMatches k term) r (children t) (st.1, m1)
  end.

Fixpoint forEach_findMatches (fuel : nat) (term : jsstring)
    (traces : list ref) (st : Heap * list jsstring)
    : option (Heap * list jsstring) :=
  match traces with
  | [] => Some st
  | r :: rest =>
      st' ← findMatches fuel term r st;
      forEach_findMatches fuel term rest st'
  end.

(** [handleSearch]: the store afterwards and the set handed to
    [setHighlightedItems]. *)
Definition handleSearch (fuel : nat) (term : jsstring) (h : Heap)
    (traces : list ref) : option (Heap * list jsstring) :=
  if bool_decide (trim term = []) then Some (h, [])
  else forEach_findMatches fuel term traces (h, []).

End Search.

(** ASCII lower-casing, the restriction of [toLowerCase] to ASCII text. *)
Definition ascii_lower (s : jsstring) : jsstring :=
  (λ c, if ((65 <=? c) && (c <=? 90))%N then (c + 32)%N else c) <$> s.

(** [array.forEach(f)] for a callback that works on an accumulated state
    and may not return. *)
Fixpoint forEach_ref {A} (f : ref → A → option A) (l : list ref) (acc : A)
    : option A :=
  match l with
  | [] => Some acc
  | r :: l' => acc' ← f r acc; forEach_ref f l' acc'
  end.

(** [collectIds(trace)] inside [getAllTraceIds], on the array [ids]. *)
Fixpoint collectIds (fuel : nat) (h : Heap) (r : ref) (ids : list jsstring)
    : option (list jsstring) :=
  match fuel with
  | 0 => None
  | S k =>
      t ← h !! r;
      forEach_ref (collectIds k h) (children t) (ids ++ [id t])
  end.

(** [getAllTraceIds(traces)] *)
Definition getAllTraceIds (fuel : nat) (h : Heap) (traces : list ref)
    : option (list jsstring) :=
  forEach_ref (collectIds fuel h) traces [].

(** The reducer of [flattenTraces]: push the trace and then, when it has
    children, the flattened children; [rec] is the recursive call. *)
Definition flatten_push (rec : list ref → option (list ref)) (h : Heap)
    (r : ref) (acc : list ref) : option (list ref) :=
  t ← h !! r;
  sub ← (if bool_decide (0 < length (children t))
         then rec (children t)
         else Some []);
  Some (acc ++ [r] ++ sub).

(** [flattenTraces(traces)] inside [scrollToTrace]: [traces.reduce] with
    the reducer above, from the empty array. *)
Fixpoint flattenTraces (fuel : nat) (h : Heap) (traces : list ref)
    : option (list ref) :=
  match fuel with
  | 0 => None
  | S k => forEach_ref (flatten_push (flattenTraces k h) h) traces []
  end.

(** ** Argument splitter ([processArgs] inside [highlightSyntax])

    The loop reads the argument text one code unit at a time and keeps
    three locals: the arguments found so far, the text of the argument
    being read and a bracket counter.  The counter is a JS number that
    goes up on any opening bracket and down on any closing one, whatever
    their kinds, and may go below zero. *)

Definition is_open_bracket (c : N) : bool :=
  ((c =? 40) || (c =? 91) || (c =? 123))%N.

Definition is_close_bracket (c : N) : bool :=
  ((c =? 41) || (c =? 93) || (c =? 125))%N.

Definition comma : N := 44%N.

Record ArgState := {
  result : list jsstring;
  currentArg : jsstring;
  parenDepth : Z;
}.

(** One round of the [for] loop. *)
Definition processArgs_step (st : ArgState) (char : N) : ArgState :=
  if is_open_bracket char then
    {| result := result st;
       currentArg := currentArg st ++ [char];
       parenDepth := parenDepth st + 1 |}
  else if is_close_bracket char then
    {| result := result st;
       currentArg := currentArg st ++ [char];
       parenDepth := parenDepth st - 1 |}
  else if (char =? comma)%N && (parenDepth st =? 0)%Z then
    {| result := result st ++ [trim (currentArg st)];
       currentArg := [];
       parenDepth := parenDepth st |}
  else
    {| result := result st;
       currentArg := currentArg st ++ [char];
       parenDepth := parenDepth st |}.

Definition processArgs_loop (st : ArgState) (argsStr : jsstring) : ArgState :=
  foldl processArgs_step st argsStr.

(** The empty string is the only falsy string: the last argument is kept
    when its trimmed text is not empty. *)
Definition processArgs (argsStr : jsstring) : list jsstring :=
  let st := processArgs_loop
              {| result := []; currentArg := []; parenDepth := 0 |} argsStr in
  match trim (currentArg st) with
  | [] => result st
  | _ :: _ => result st ++ [trim (currentArg st)]
  end.

(** ** Expansion history (the updater given to [setExpandedHistory] in
    [toggleExpand])

    The updater takes the previous history and returns the next one.  It
    reads nothing of the history entries but their [id]. *)

Definition history_add (prev : list Trace) (trace : Trace) : list Trace :=
  let traceExists :=
    existsb (λ historyTrace, bool_decide (id historyTrace = id trace)) prev in
  if traceExists then
    let filteredHistory :=
      filter (λ historyTrace, id historyTrace ≠ id trace) prev in
    filteredHistory ++ [trace]
  else prev ++ [trace].

(** ** Colouring of return and event lines (the first two branches of
    [highlightSyntax])

    [s.split(sep)] for a literal, non-empty separator: the text is cut at
    each occurrence of the separator, found from left to right, the search
    going on after the occurrence.  [skip] counts the code units of an
    occurrence that are still to be passed over. *)

Fixpoint split_go (sep : jsstring) (skip : nat) (cur s : jsstring)
  : list jsstring :=
  match s with
  | [] => [cur]
  | c :: s' =>
      match skip with
      | S k => split_go sep k cur s'
      | 0 =>
          if starts_with sep s
          then cur :: split_go sep (length sep - 1) [] s'
          else split_go sep 0 (cur ++ [c]) s'
      end
  end.

Definition split (sep s : jsstring) : list jsstring := split_go sep 0 [] s.

(** [parts.join(sep)] *)
Fixpoint join (sep : jsstring) (parts : list jsstring) : jsstring :=
  match parts with
  | [] => []
  | [x] => x
  | x :: parts' => x ++ sep ++ join sep parts'
  end.

Record Span := {
  span_text : jsstring;
  span_className : jsstring;
}.

Definition createSpan (text className : jsstring) : Span :=
  {| span_text := text; span_className := className |}.

Definition corner_arrow : jsstring :=
  [glyph_corner; glyph_dash; 32%N; arrow_left].
Definition bar_corner_arrow : jsstring :=
  [glyph_bar; 32%N; 32%N; 32%N; glyph_corner; glyph_dash; 32%N; arrow_left].
Definition tee_arrow : jsstring :=
  [glyph_tee; glyph_dash; 32%N; arrow_left].

(** The spans of the fragment returned by the first two branches; [None]
    stands for the later branches (call pattern, addresses, plain text),
    which are not part of this model. *)
Definition highlightSyntax_spans (content : jsstring) : option (list Span) :=
  if includes content corner_arrow || includes content bar_corner_arrow
     || includes content tee_arrow
  then
    let parts := split [arrow_left] content in
    Some [createSpan (hd [] parts ++ [arrow_left]) (str "text-gray-400");
          createSpan (join [arrow_left] (tail parts))
                     (str "text-green-400 font-bold")]
  else if includes content (str "emit ") then
    let parts := split (str "emit ") content in
    Some [createSpan (hd [] parts ++ str "emit ") (str "text-gray-400");
          createSpan (join (str "emit ") (tail parts))
                     (str "text-yellow-400")]
  else None.

(** ** Sample documents *)

Definition nl : jsstring := [10%N].

(** ["Traces:\nA::b(1,2)\n  └─ ← [Return]"] *)
Definition example1 : jsstring :=
  str "Traces:" ++ nl ++ str "A::b(1,2)" ++ nl ++
  str "  " ++ [glyph_corner; glyph_dash] ++ str " " ++ [arrow_left] ++
  str " [Return]".

(** Two sections of one root line each. *)
Definition example2 : jsstring :=
  str "Traces:" ++ nl ++ str "A::f()" ++ nl ++
  str "Traces:" ++ nl ++ str "B::g()".

(** Depth 3 directly under a root. *)
Definition example3_lines : list jsstring :=
  [ str "Root::run()";
    [glyph_bar] ++ str "   " ++ [glyph_bar] ++ str "   " ++
    [glyph_tee; glyph_dash] ++ str " Deep::call()" ].


(** A line that carries all three markers is a static call. *)
Definition all_markers_line : jsstring :=
  str "  A::f() [call] [delegatecall] [staticcall]".

(** Three glyphs, a dash and uneven white space: depth 3. *)
Definition three_glyph_line : jsstring :=
  [glyph_bar] ++ str "      " ++ [glyph_bar; glyph_tee; glyph_dash] ++
  str " X::y()".

(** A root with a child and a grandchild, then a second section. *)
Definition nested_document : jsstring :=
  str "Traces:" ++ nl ++ str "A::f()" ++ nl ++
  str "  " ++ [glyph_tee; glyph_dash] ++ str " B::g()" ++ nl ++
  str "  " ++ [glyph_bar] ++ str "   " ++ [glyph_corner; glyph_dash] ++
  str " C::h()" ++ nl ++
  str "Traces:" ++ nl ++ str "D::k()" ++ nl ++
  str "  " ++ [glyph_corner; glyph_dash] ++ str " E::m()".

(** An indented line before any root, then a root with a child. *)
Definition orphan_lines : list jsstring :=
  [ str "  " ++ [glyph_tee; glyph_dash] ++ str " Lost::call()";
    str "Root::run()";
    str "  " ++ [glyph_corner; glyph_dash] ++ str " Kept::call()" ].

(** The forest of the first sample document. *)
Definition example1_heap : Heap :=
  (default ([], []) (parseTraceFile 3 example1)).1.

(** * Specification vocabulary *)

(** [p] occurs in [s]. *)
Definition contains (s p : jsstring) : Prop := ∃ l r, s = l ++ p ++ r.

(** The language of the indentation pattern: white space, then groups of
    one glyph, an optional dash and white space. *)
Inductive indent_prefix : jsstring → Prop :=
  | indent_ws w :
      Forall (λ c, is_space c = true) w → indent_prefix w
  | indent_group p g d w :
      indent_prefix p →
      is_glyph g = true →
      d = [] ∨ d = [glyph_dash] →
      Forall (λ c, is_space c = true) w →
      indent_prefix (p ++ g :: d ++ w).

(** The state of the scanner after it has accepted [p]. *)
Fixpoint end_state (b : bool) (p : jsstring) : bool :=
  match p with
  | [] => b
  | c :: p' => end_state (negb (is_space c) && is_glyph c) p'
  end.

(** What [classifyLine] hands to [attach] when the counter reads [n]. *)
Definition fresh_trace (t : Trace) (n : nat) : Prop :=
  children t = [] ∧ parent t = None ∧ stackId t = None ∧ id t = trace_id n.

(** The store [h], the roots [R] found so far in the document (earlier
    sections first), the stack [K] and the counter [n]:
    - children are allocated after their parent;
    - roots come in allocation order, and a subtree never reaches the next
      root;
    - the stack holds nodes of the last root's subtree;
    - no [parent] link or [stackId] is set yet;
    - the ids are [trace_id k] for distinct [k] below the counter. *)
Record Inv (h : Heap) (R K : list ref) (n : nat) : Prop := mkInv {
  inv_children : ∀ r t c,
    h !! r = Some t → c ∈ children t → r < c < length h;
  inv_roots_sorted : ∀ i j a b,
    R !! i = Some a → R !! j = Some b → i < j → a < b;
  inv_roots_bound : ∀ a, a ∈ R → a < length h;
  inv_stack_bound : ∀ s, s ∈ K → s < length h;
  inv_stack_above : ∀ s a, s ∈ K → a ∈ R → a ≤ s;
  inv_sep : ∀ r t c a,
    h !! r = Some t → c ∈ children t → a ∈ R → r < a → c < a;
  inv_unlinked : ∀ r t, h !! r = Some t → parent t = None ∧ stackId t = None;
  inv_ids : ∀ r t, h !! r = Some t → ∃ k, id t = trace_id k ∧ k < n;
  inv_ids_inj : ∀ r1 r2 t1 t2,
    h !! r1 = Some t1 → h !! r2 = Some t2 → id t1 = id t2 → r1 = r2
}.

(** [n] is reached from [r] by following [children]. *)
Inductive descendant (h : Heap) : ref → ref → Prop :=
  | desc_refl r : descendant h r r
  | desc_step r t c n :
      h !! r = Some t → c ∈ children t → descendant h c n →
      descendant h r n.

(** Children are allocated after their parent, inside the store. *)
Definition children_ordered (h : Heap) : Prop :=
  ∀ r t c, h !! r = Some t → c ∈ children t → r < c < length h.

(** The two stores hold the same objects with the same [children]. *)
Definition same_children (h h' : Heap) : Prop :=
  length h' = length h ∧
  ∀ x t, h !! x = Some t → ∃ t', h' !! x = Some t' ∧ children t' = children t.

(** From [h] to [h'] only [stackId] fields changed, each to [sid] and only
    at addresses from [lo] on. *)
Definition stack_frame (lo sid : nat) (h h' : Heap) : Prop :=
  length h' = length h ∧
  ∀ x t, h !! x = Some t →
    ∃ t', h' !! x = Some t' ∧ t' = set_stackId (stackId t') t ∧
          (stackId t' = stackId t ∨ (lo ≤ x ∧ stackId t' = Some sid)).

(** From [h] to [h'] only [stackId] fields changed. *)
Definition stackIds_only (h h' : Heap) : Prop :=
  length h' = length h ∧
  ∀ x t, h !! x = Some t →
    ∃ t', h' !! x = Some t' ∧ t' = set_stackId (stackId t') t.

(** [c] is in the [children] array of [p]. *)
Definition edge (h : Heap) (p c : ref) : Prop :=
  ∃ tp, h !! p = Some tp ∧ c ∈ children tp.

(** Every [parent] link that is set points to an earlier object. *)
Definition parents_below (h : Heap) : Prop :=
  ∀ r t p, h !! r = Some t → parent t = Some p → p < r.

(** [a] is reached from [r] by following [parent] links. *)
Inductive up (h : Heap) : ref → ref → Prop :=
  | up_refl r : up h r r
  | up_step r t p a :
      h !! r = Some t → parent t = Some p → up h p a → up h r a.

(** [l] lists the nodes from [r] down to [n] along [children]. *)
Inductive path (h : Heap) : ref → list ref → ref → Prop :=
  | path_end r : path h r [r] r
  | path_step r t c l n :
      h !! r = Some t → c ∈ children t → path h c l n →
      path h r (r :: l) n.

(** From [h] to [h'] only [parent] fields changed, only at addresses above
    [lo], and each to an object that has the node among its children. *)
Definition parent_frame (lo : nat) (h h' : Heap) : Prop :=
  length h' = length h ∧
  ∀ x t, h !! x = Some t →
    ∃ t', h' !! x = Some t' ∧ t' = set_parent (parent t') t ∧
          (parent t' = parent t ∨
           (lo < x ∧ ∃ p, parent t' = Some p ∧ edge h p x)).

(** After the search the node has a [parent] link to one of the objects
    that list it as a child. *)
Definition linked (h h' : Heap) (n : ref) : Prop :=
  ∃ t' p, h' !! n = Some t' ∧ parent t' = Some p ∧ edge h p n.

(** The shape that the tree builder keeps, for the store [h], the roots
    [R] and the stack [K]: roots have depth 0 and children do not; the
    children of a node are in allocation order; a node is the child of at
    most one node; the stack is in allocation order; an edge never jumps
    over a node of the stack, nor over a node that has a later child. *)
Record Forest (h : Heap) (R K : list ref) : Prop := mkForest {
  fo_root_depth : ∀ a, a ∈ R → ∃ t, h !! a = Some t ∧ depth t = 0;
  fo_child_depth : ∀ p c tc, edge h p c → h !! c = Some tc → depth tc ≠ 0;
  fo_children_sorted : ∀ p t i j a b,
    h !! p = Some t → children t !! i = Some a → children t !! j = Some b →
    i < j → a < b;
  fo_unique_parent : ∀ p1 p2 c, edge h p1 c → edge h p2 c → p1 = p2;
  fo_stack_sorted : ∀ i j a b,
    K !! i = Some a → K !! j = Some b → i < j → a < b;
  fo_stack_edges : ∀ p c s, edge h p c → s ∈ K → s ≤ p ∨ c ≤ s;
  fo_noncross : ∀ p c x y,
    edge h p c → edge h x y → p < x → x < c → y < c
}.

(** The state of one run of [parseTraceLines] that started on a store of
    [n0] objects: the stack holds nodes of the run's forest and is not
    empty once there is a root; every object of the run is in the run's
    forest, or is an indented node that precedes all the run's roots. *)
Definition run_ok (n0 : nat) (st : PState) : Prop :=
  (∀ s, s ∈ currentStack st →
        ∃ a, a ∈ rootTraces st ∧ descendant (heap st) a s) ∧
  (rootTraces st ≠ [] → currentStack st ≠ []) ∧
  (∀ n t, n0 ≤ n → heap st !! n = Some t →
          (∃ a, a ∈ rootTraces st ∧ descendant (heap st) a n) ∨
          (depth t ≠ 0 ∧ ∀ a, a ∈ rootTraces st → n < a)).

(** Every [parent] link that is set points to an object that lists the
    node among its children. *)
Definition parents_linked (h : Heap) : Prop :=
  ∀ x t p, h !! x = Some t → parent t = Some p → edge h p x.

(** Opening brackets minus closing brackets of a text. *)
Definition bracket_delta (c : N) : Z :=
  if is_open_bracket c then 1 else if is_close_bracket c then -1 else 0.

Fixpoint bracket_depth (s : jsstring) : Z :=
  match s with
  | [] => 0
  | c :: s' => bracket_delta c + bracket_depth s'
  end.

(** No comma of [s] has as many opening as closing brackets before it. *)
Definition no_top_comma (s : jsstring) : Prop :=
  ∀ s1 s2, s = s1 ++ comma :: s2 → bracket_depth s1 ≠ 0%Z.

(** The same as a test, starting from depth [d]. *)
Fixpoint top_comma_free (d : Z) (s : jsstring) : bool :=
  match s with
  | [] => true
  | c :: s' =>
      negb ((c =? comma)%N && (d =? 0)%Z)
      && top_comma_free (d + bracket_delta c) s'
  end.




(** From [h] to [h'] objects are only added, and [children] arrays only
    grow. *)
Definition grows (h h' : Heap) : Prop :=
  ∀ x t, h !! x = Some t →
    ∃ t', h' !! x = Some t' ∧
          set_children [] t' = set_children [] t ∧
          ∀ c, c ∈ children t → c ∈ children t'.





(** * Properties *)

(** ** Strings *)

Lemma starts_with_spec p s : starts_with p s = true ↔ ∃ r, s = p ++ r.
Proof.
  revert s. induction p as [|a p IH]; intros s; simpl.
  - split; [eauto | done].
  - destruct s as [|b s].
    + split; [done | intros [r Hr]; discriminate].
    + rewrite andb_true_iff, N.eqb_eq, IH. split.
      * intros [-> [r ->]]. eauto.
      * intros [r Hr]. simplify_eq/=. eauto.
Qed.

Lemma includes_spec s p : includes s p = true ↔ contains s p.
Proof.
  unfold contains. induction s as [|c s IH].
  - simpl. rewrite orb_false_r, starts_with_spec. split.
    + intros [r Hr]. exists [], r. done.
    + intros (l & r & Hlr). symmetry in Hlr.
      apply app_eq_nil in Hlr as [-> Hlr].
      apply app_eq_nil in Hlr as [-> ->]. by exists [].
  - simpl. rewrite orb_true_iff, starts_with_spec, IH. split.
    + intros [[r Hr] | (l & r & Hlr)].
      * exists [], r. done.
      * exists (c :: l), r. by rewrite Hlr.
    + intros (l & r & Hlr). destruct l as [|c' l]; simpl in *.
      * left. eauto.
      * right. simplify_eq. eauto.
Qed.

Lemma includes_false s p : includes s p = false ↔ ¬ contains s p.
Proof. rewrite <- includes_spec. by destruct (includes s p). Qed.

Lemma classifyLine_Some line n t :
  classifyLine line n = Some t →
  trim line ≠ [] ∧
  content t = trim (drop (length (indentMatch line)) line) ∧
  content t ≠ [] ∧
  id t = trace_id n ∧
  children t = [] ∧
  depth t = glyph_count (indentMatch line) ∧
  callType t = detect_callType (content t) ∧
  isReturn t = detect_isReturn (content t) ∧
  parent t = None ∧ stackId t = None.
Proof.
  unfold classifyLine. intros H.
  repeat case_bool_decide; simplify_eq/=. done.
Qed.

(** ** The line classifier *)

(** C2. The call type follows the three bracketed markers in the order
    staticcall, call, delegatecall: the first marker that occurs in the
    content decides, whatever else the content holds, and without any of
    them the call type stays unset. *)
Theorem callType_priority line n t :
  classifyLine line n = Some t →
  (contains (content t) (str "[staticcall]") →
     callType t = Some (str "staticcall")) ∧
  (¬ contains (content t) (str "[staticcall]") →
   contains (content t) (str "[call]") →
     callType t = Some (str "call")) ∧
  (¬ contains (content t) (str "[staticcall]") →
   ¬ contains (content t) (str "[call]") →
   contains (content t) (str "[delegatecall]") →
     callType t = Some (str "delegatecall")) ∧
  (¬ contains (content t) (str "[staticcall]") →
   ¬ contains (content t) (str "[call]") →
   ¬ contains (content t) (str "[delegatecall]") →
     callType t = None).
Proof.
  intros H. apply classifyLine_Some in H.
  destruct H as (_ & _ & _ & _ & _ & _ & Hc & _). rewrite Hc.
  unfold detect_callType.
  repeat split; intros;
    repeat match goal with
    | H : contains _ _ |- _ => apply includes_spec in H; rewrite H
    | H : ¬ contains _ _ |- _ => apply includes_false in H; rewrite H
    end; done.
Qed.

Lemma callType_priority_witness :
  ∃ t, classifyLine all_markers_line 0 = Some t ∧
       contains (content t) (str "[call]") ∧
       callType t = Some (str "staticcall").
Proof.
  eexists. split; [vm_compute; reflexivity|].
  split.
  - apply includes_spec. vm_compute. reflexivity.
  - eapply (callType_priority all_markers_line 0).
    + vm_compute. reflexivity.
    + apply includes_spec. vm_compute. reflexivity.
Defined.

Lemma glyph_not_space c : is_glyph c = true → is_space c = false.
Proof.
  unfold is_glyph. rewrite !orb_true_iff, !N.eqb_eq.
  intros [[->| ->]| ->]; reflexivity.
Qed.

Lemma glyph_not_dash c : is_glyph c = true → is_dash c = false.
Proof.
  unfold is_glyph. rewrite !orb_true_iff, !N.eqb_eq.
  intros [[->| ->]| ->]; reflexivity.
Qed.

Lemma is_dash_eq c : is_dash c = true → c = glyph_dash.
Proof. unfold is_dash. by rewrite N.eqb_eq. Qed.

Lemma indent_scan_is_prefix b s : indent_scan b s `prefix_of` s.
Proof.
  revert b. induction s as [|c s IH]; intros b; simpl; [done|].
  repeat case_match; try apply prefix_cons; try apply IH; apply prefix_nil.
Qed.

Lemma indent_scan_app p : ∀ b q,
  indent_scan b p = p →
  indent_scan b (p ++ q) = p ++ indent_scan (end_state b p) q.
Proof.
  induction p as [|c p IH]; intros b q H; simpl in *; [done|].
  destruct (is_space c) eqn:Hs; simpl.
  { simplify_eq. by rewrite IH. }
  destruct (is_glyph c) eqn:Hg; simpl.
  { simplify_eq. by rewrite IH. }
  destruct (b && is_dash c) eqn:Hd; [|done].
  simplify_eq. by rewrite IH.
Qed.

Lemma indent_scan_spaces b w :
  Forall (λ c, is_space c = true) w → indent_scan b w = w.
Proof.
  intros H. revert b. induction H as [|c w Hc _ IH]; intros b; simpl; [done|].
  by rewrite Hc, IH.
Qed.

Lemma indent_prefix_accepted p : indent_prefix p → indent_scan false p = p.
Proof.
  induction 1 as [w Hw | p g d w _ IH Hg Hd Hw].
  - by apply indent_scan_spaces.
  - rewrite indent_scan_app by done. f_equal. simpl.
    rewrite (glyph_not_space _ Hg), Hg. f_equal.
    destruct Hd as [-> | ->]; simpl.
    + by apply indent_scan_spaces.
    + f_equal. by apply indent_scan_spaces.
Qed.

Lemma indent_prefix_snoc_space p c :
  indent_prefix p → is_space c = true → indent_prefix (p ++ [c]).
Proof.
  intros Hp Hc. destruct Hp as [w Hw | p g d w Hp Hg Hd Hw].
  - apply indent_ws. apply Forall_app. split; [done | by constructor].
  - replace ((p ++ g :: d ++ w) ++ [c]) with (p ++ g :: d ++ (w ++ [c]))
      by (by rewrite <- !app_assoc, <- !app_comm_cons, <- !app_assoc).
    apply indent_group; try done.
    apply Forall_app. split; [done | by constructor].
Qed.

Lemma indent_scan_in_language s : ∀ b p,
  indent_prefix p →
  (b = true → ∃ p' g, p = p' ++ [g] ∧ is_glyph g = true ∧ indent_prefix p') →
  indent_prefix (p ++ indent_scan b s).
Proof.
  induction s as [|c s IH]; intros b p Hp Hb; simpl.
  { by rewrite app_nil_r. }
  destruct (is_space c) eqn:Hs.
  { rewrite cons_middle, app_assoc. apply IH; [|done].
    by apply indent_prefix_snoc_space. }
  destruct (is_glyph c) eqn:Hg.
  { rewrite cons_middle, app_assoc. apply IH.
    - apply (indent_group p c [] []); auto.
    - intros _. eauto. }
  destruct (b && is_dash c) eqn:Hd; [|by rewrite app_nil_r].
  apply andb_true_iff in Hd as [-> Hd]. apply is_dash_eq in Hd as ->.
  destruct Hb as (p' & g & -> & Hg' & Hp'); [done|].
  rewrite cons_middle, app_assoc. apply IH; [|done].
  rewrite <- app_assoc. apply (indent_group p' g [glyph_dash] []); auto.
Qed.

(** The indentation match is the longest prefix of the line that belongs
    to the language of the pattern. *)
Lemma indentMatch_maximal line :
  indentMatch line `prefix_of` line ∧
  indent_prefix (indentMatch line) ∧
  ∀ q, q `prefix_of` line → indent_prefix q → q `prefix_of` indentMatch line.
Proof.
  unfold indentMatch. split; [apply indent_scan_is_prefix|]. split.
  - apply (indent_scan_in_language line false []); [|done].
    by apply indent_ws.
  - intros q [r ->] Hq.
    rewrite indent_scan_app by by apply indent_prefix_accepted.
    by apply prefix_app_r.
Qed.

Lemma glyph_count_cons c p :
  glyph_count (c :: p) = (if is_glyph c then 1 else 0) + glyph_count p.
Proof.
  unfold glyph_count. rewrite filter_cons.
  destruct (is_glyph c); by case_decide.
Qed.

Lemma glyph_count_occurrences p :
  glyph_count p = count_occ N.eq_dec p glyph_bar
                  + count_occ N.eq_dec p glyph_tee
                  + count_occ N.eq_dec p glyph_corner.
Proof.
  induction p as [|c p IH]; [done|].
  rewrite glyph_count_cons, IH. simpl. unfold is_glyph.
  repeat destruct (N.eq_dec c _) as [->|]; simpl; try lia;
    try discriminate.
  rewrite !(proj2 (N.eqb_neq _ _)) by done. simpl. lia.
Qed.

Lemma glyph_count_no_space p :
  glyph_count (filter (λ c, is_space c = false) p) = glyph_count p.
Proof.
  induction p as [|c p IH]; [done|].
  rewrite filter_cons, (glyph_count_cons c p).
  case_decide as Hs.
  - by rewrite glyph_count_cons, IH.
  - destruct (is_glyph c) eqn:Hg; [|done].
    by rewrite glyph_not_space in Hs.
Qed.

(** C5. The depth of a node is the number of glyph characters (vertical
    bar, tee, corner) in the indentation prefix of its line, where that
    prefix is the longest one made of white space and glyph groups; the
    dashes and the white space of the prefix do not count, so two lines
    whose prefixes differ in white space only have the same depth. *)
Theorem depth_counts_glyphs line n t :
  classifyLine line n = Some t →
  let p := indentMatch line in
  (p `prefix_of` line ∧ indent_prefix p ∧
   ∀ q, q `prefix_of` line → indent_prefix q → q `prefix_of` p) ∧
  depth t = count_occ N.eq_dec p glyph_bar
            + count_occ N.eq_dec p glyph_tee
            + count_occ N.eq_dec p glyph_corner ∧
  ∀ line' n' t',
    classifyLine line' n' = Some t' →
    filter (λ c, is_space c = false) (indentMatch line')
      = filter (λ c, is_space c = false) p →
    depth t' = depth t.
Proof.
  intros H p. split; [apply indentMatch_maximal|].
  apply classifyLine_Some in H as (_ & _ & _ & _ & _ & Hd & _).
  split.
  - rewrite Hd. apply glyph_count_occurrences.
  - intros line' n' t' H' Heq.
    apply classifyLine_Some in H' as (_ & _ & _ & _ & _ & Hd' & _).
    rewrite Hd, Hd', <- (glyph_count_no_space (indentMatch line')), Heq.
    apply glyph_count_no_space.
Qed.

Lemma depth_counts_glyphs_witness :
  ∃ t, classifyLine three_glyph_line 7 = Some t ∧ depth t = 3.
Proof.
  eexists. split; [vm_compute; reflexivity|].
  pose proof (depth_counts_glyphs three_glyph_line 7 _
                ltac:(vm_compute; reflexivity)) as (_ & Hd & _).
  etransitivity; [exact Hd|]. vm_compute. reflexivity.
Defined.

(** ** Bounded recursion: more fuel changes nothing *)

Lemma assignStackIds_nil k h sid : assignStackIds (S k) h [] sid = Some h.
Proof. reflexivity. Qed.

Lemma assignStackIds_cons k h r l sid :
  assignStackIds (S k) h (r :: l) sid =
  match alter (set_stackId (Some sid)) r h !! r with
  | None => None
  | Some t =>
      match (if bool_decide (0 < length (children t))
             then assignStackIds k (alter (set_stackId (Some sid)) r h)
                                 (children t) sid
             else Some (alter (set_stackId (Some sid)) r h)) with
      | None => None
      | Some h2 => assignStackIds (S k) h2 l sid
      end
  end.
Proof. reflexivity. Qed.

Lemma assignStackIds_cons_Some k h r l sid t h2 :
  h !! r = Some t →
  (if bool_decide (0 < length (children t))
   then assignStackIds k (alter (set_stackId (Some sid)) r h) (children t) sid
   else Some (alter (set_stackId (Some sid)) r h)) = Some h2 →
  assignStackIds (S k) h (r :: l) sid = assignStackIds (S k) h2 l sid.
Proof.
  intros Ht H. rewrite assignStackIds_cons, list_lookup_alter_eq, Ht.
  simpl. by rewrite H.
Qed.

Lemma assignStackIds_fuel_mono k : ∀ k' h l sid h',
  k ≤ k' →
  assignStackIds k h l sid = Some h' →
  assignStackIds k' h l sid = Some h'.
Proof.
  induction k as [|k IH]; intros k' h l sid h' Hk H; [done|].
  destruct k' as [|k']; [lia|].
  revert h H. induction l as [|r l IHl]; intros h H; [done|].
  rewrite assignStackIds_cons in *.
  destruct (alter _ r h !! r) as [t|]; [|done].
  case_bool_decide.
  - destruct (assignStackIds k _ (children t) sid) as [h2|] eqn:E; [|done].
    rewrite (IH k' _ _ _ h2) by (done || lia). by apply IHl.
  - by apply IHl.
Qed.

Lemma assignRoots_fuel_mono k k' l : ∀ h i h',
  k ≤ k' →
  assignRoots k h l i = Some h' →
  assignRoots k' h l i = Some h'.
Proof.
  induction l as [|r l IH]; intros h i h' Hk H; simpl in *; [done|].
  destruct (alter _ r h !! r) as [t|]; [|done].
  destruct (assignStackIds k _ (children t) i) as [h2|] eqn:E; [|done].
  rewrite (assignStackIds_fuel_mono k k' _ _ _ h2) by done. by apply IH.
Qed.

Lemma parseTraceFile_fuel_mono k k' text r :
  k ≤ k' →
  parseTraceFile k text = Some r →
  parseTraceFile k' text = Some r.
Proof.
  unfold parseTraceFile. intros Hk H.
  destruct (assignRoots k _ _ 0) as [h|] eqn:E; [|done].
  by rewrite (assignRoots_fuel_mono k k' _ _ _ h).
Qed.

(** ** Example 1 and the return flag *)

(** C8. The sample document parses to one root, for contract A and
    function b, whose only child is a return line of depth 1; and the
    return flag of a node is set exactly when its trimmed content holds
    the arrow followed by [Return] or by [Stop]. *)
Theorem example1_forest :
  (∀ fuel, 1 ≤ fuel →
     ∃ h root child,
       parseTraceFile fuel example1 = Some (h, [0]) ∧
       length h = 2 ∧
       h !! 0 = Some root ∧
       contractName root = Some (str "A") ∧
       functionName root = Some (str "b") ∧
       children root = [1] ∧
       h !! 1 = Some child ∧
       children child = [] ∧
       isReturn child = true ∧
       depth child = 1) ∧
  (∀ line n t,
     classifyLine line n = Some t →
     content t = trim (drop (length (indentMatch line)) line) ∧
     (isReturn t = true ↔
        contains (content t) return_marker ∨
        contains (content t) stop_marker)).
Proof.
  split.
  - intros fuel Hfuel. do 3 eexists. split.
    + apply (parseTraceFile_fuel_mono 1 fuel); [done|].
      vm_compute. reflexivity.
    + repeat split.
  - intros line n t H.
    apply classifyLine_Some in H as (_ & Hc & _ & _ & _ & _ & _ & Hr & _).
    split; [done|]. rewrite Hr. unfold detect_isReturn.
    by rewrite orb_true_iff, !includes_spec.
Qed.

Lemma example1_forest_witness :
  (∃ h, parseTraceFile 3 example1 = Some (h, [0]) ∧ length h = 2) ∧
  (∃ t, classifyLine (str "  x " ++ stop_marker) 0 = Some t ∧
        isReturn t = true).
Proof.
  split.
  - destruct (proj1 example1_forest 3) as (h & root & child & H & Hl & _).
    + repeat constructor.
    + exists h. by split.
  - pose proof (proj2 example1_forest (str "  x " ++ stop_marker) 0 _
                  ltac:(vm_compute; reflexivity)) as [_ Hiff].
    eexists. split; [vm_compute; reflexivity|].
    apply Hiff. right. apply includes_spec. vm_compute. reflexivity.
Defined.

(** ** Identifiers *)

Lemma str_inj s1 s2 : str s1 = str s2 → s1 = s2.
Proof.
  unfold str. intros H.
  rewrite <- (string_of_list_ascii_of_string s1),
          <- (string_of_list_ascii_of_string s2).
  f_equal. revert H. generalize (list_ascii_of_string s1) as l1.
  generalize (list_ascii_of_string s2) as l2.
  intros l2 l1. revert l2.
  induction l1 as [|a l1 IH]; intros [|b l2] H; simplify_eq/=; [done|].
  f_equal; [|by apply IH].
  rewrite <- (ascii_N_embedding a), <- (ascii_N_embedding b). congruence.
Qed.

Lemma trace_id_inj n m : trace_id n = trace_id m → n = m.
Proof.
  unfold trace_id, num_to_string. intros H.
  apply app_inv_head in H. apply str_inj in H.
  by apply (inj pretty) in H.
Qed.

(** ** Invariants of the tree builder *)

Lemma classifyLine_fresh line n t :
  classifyLine line n = Some t → fresh_trace t n.
Proof.
  intros H.
  apply classifyLine_Some in H as (_ & _ & _ & ? & ? & _ & _ & _ & ? & ?).
  by repeat split.
Qed.

Lemma Inv_empty : Inv [] [] [] 0.
Proof.
  split; intros; simplify_eq/=;
    try match goal with H : _ ∈ [] |- _ => by apply elem_of_nil in H end.
Qed.

Lemma heap_lookup_snoc (h : Heap) t x tx :
  (h ++ [t]) !! x = Some tx →
  (x < length h ∧ h !! x = Some tx) ∨ (x = length h ∧ tx = t).
Proof.
  intros H. apply lookup_app_Some in H as [H | [Hx H]].
  - left. split; [by eapply lookup_lt_Some | done].
  - right. apply list_lookup_singleton_Some in H as [? ->].
    split; [lia | done].
Qed.

Lemma lookup_push_child (h : Heap) t p x tx :
  p < length h →
  push_child (h ++ [t]) p (length h) !! x = Some tx →
  (x ≠ p ∧ x < length h ∧ h !! x = Some tx) ∨
  (x = p ∧ ∃ tp, h !! p = Some tp ∧
                 tx = set_children (children tp ++ [length h]) tp) ∨
  (x ≠ p ∧ x = length h ∧ tx = t).
Proof.
  intros Hp H. unfold push_child in H.
  destruct (decide (x = p)) as [->|Hne].
  - right; left. split; [done|].
    rewrite list_lookup_alter_eq, lookup_app_l in H by done.
    destruct (h !! p) as [tp|]; simplify_eq/=. eauto.
  - rewrite list_lookup_alter_ne in H by done.
    apply heap_lookup_snoc in H as [[? H]|[-> ->]]; [by left|].
    by right; right.
Qed.

Lemma Inv_alloc_root h R K n t :
  Inv h R K n → fresh_trace t n →
  Inv (h ++ [t]) (R ++ [length h]) [length h] (S n).
Proof.
  intros [Hc Hs Hrb Hsb Hsa Hsep Hu Hid Hinj] (Hch & Hp & Hsi & Hi).
  split; rewrite ?length_app; simpl.
  - intros r tr c H Hin. apply heap_lookup_snoc in H as [[? H]|[-> ->]].
    + specialize (Hc _ _ _ H Hin). lia.
    + rewrite Hch in Hin. by apply elem_of_nil in Hin.
  - intros i j a b Ha Hb Hij.
    assert (i < length R) as Hi'.
    { apply lookup_lt_Some in Hb. rewrite length_app in Hb. simpl in Hb. lia. }
    rewrite lookup_app_l in Ha by done.
    apply lookup_app_Some in Hb as [Hb | [_ Hb]]; [by eapply Hs|].
    apply list_lookup_singleton_Some in Hb as [_ <-].
    apply Hrb. by eapply list_elem_of_lookup_2.
  - intros a [Ha | Ha%list_elem_of_singleton]%elem_of_app.
    + apply Hrb in Ha. lia.
    + lia.
  - intros s ->%list_elem_of_singleton. lia.
  - intros s a ->%list_elem_of_singleton
      [Ha | Ha%list_elem_of_singleton]%elem_of_app.
    + apply Hrb in Ha. lia.
    + lia.
  - intros r tr c a H Hin Ha Hlt.
    apply heap_lookup_snoc in H as [[Hr H]|[-> ->]].
    + apply elem_of_app in Ha as [Ha | ->%list_elem_of_singleton].
      * by eapply Hsep.
      * specialize (Hc _ _ _ H Hin). lia.
    + rewrite Hch in Hin. by apply elem_of_nil in Hin.
  - intros r tr H. apply heap_lookup_snoc in H as [[? H]|[-> ->]]; eauto.
  - intros r tr H. apply heap_lookup_snoc in H as [[? H]|[-> ->]].
    + destruct (Hid _ _ H) as (k & ? & ?). exists k. split; [done | lia].
    + exists n. split; [done | lia].
  - intros r1 r2 t1 t2 H1 H2 Heq.
    apply heap_lookup_snoc in H1 as [[? H1]|[-> ->]];
      apply heap_lookup_snoc in H2 as [[? H2]|[-> ->]]; [by eauto | | | done].
    + destruct (Hid _ _ H1) as (k & Hk & ?).
      rewrite Hk, Hi in Heq. apply trace_id_inj in Heq. lia.
    + destruct (Hid _ _ H2) as (k & Hk & ?).
      rewrite Hk, Hi in Heq. apply trace_id_inj in Heq. lia.
Qed.

Lemma Inv_alloc_drop h R K n t :
  Inv h R K n → fresh_trace t n →
  Inv (h ++ [t]) R K (S n).
Proof.
  intros [Hc Hs Hrb Hsb Hsa Hsep Hu Hid Hinj] (Hch & Hp & Hsi & Hi).
  split; rewrite ?length_app; simpl; try done.
  - intros r tr c H Hin. apply heap_lookup_snoc in H as [[? H]|[-> ->]].
    + specialize (Hc _ _ _ H Hin). lia.
    + rewrite Hch in Hin. by apply elem_of_nil in Hin.
  - intros a Ha. apply Hrb in Ha. lia.
  - intros s Hs'. apply Hsb in Hs'. lia.
  - intros r tr c a H Hin Ha Hlt.
    apply heap_lookup_snoc in H as [[Hr H]|[-> ->]]; [by eapply Hsep|].
    rewrite Hch in Hin. by apply elem_of_nil in Hin.
  - intros r tr H. apply heap_lookup_snoc in H as [[? H]|[-> ->]]; eauto.
  - intros r tr H. apply heap_lookup_snoc in H as [[? H]|[-> ->]].
    + destruct (Hid _ _ H) as (k & ? & ?). exists k. split; [done | lia].
    + exists n. split; [done | lia].
  - intros r1 r2 t1 t2 H1 H2 Heq.
    apply heap_lookup_snoc in H1 as [[? H1]|[-> ->]];
      apply heap_lookup_snoc in H2 as [[? H2]|[-> ->]]; [by eauto | | | done].
    + destruct (Hid _ _ H1) as (k & Hk & ?).
      rewrite Hk, Hi in Heq. apply trace_id_inj in Heq. lia.
    + destruct (Hid _ _ H2) as (k & Hk & ?).
      rewrite Hk, Hi in Heq. apply trace_id_inj in Heq. lia.
Qed.

Lemma length_push_child h p c : length (push_child h p c) = length h.
Proof. apply length_alter. Qed.

Lemma Inv_alloc_child h R K K' n t p :
  Inv h R K n → fresh_trace t n →
  p ∈ K → (∀ s, s ∈ K' → s ∈ K) →
  Inv (push_child (h ++ [t]) p (length h)) R (K' ++ [length h]) (S n).
Proof.
  intros [Hc Hs Hrb Hsb Hsa Hsep Hu Hid Hinj] (Hch & Hp & Hsi & Hi) HpK HK'.
  assert (p < length h) as Hlt by by apply Hsb.
  assert (∀ x tx, push_child (h ++ [t]) p (length h) !! x = Some tx →
            (∃ tx0, x < length h ∧ h !! x = Some tx0 ∧ id tx = id tx0 ∧
                    parent tx = parent tx0 ∧ stackId tx = stackId tx0 ∧
                    ∀ c, c ∈ children tx →
                         c ∈ children tx0 ∨ (x = p ∧ c = length h)) ∨
            (x = length h ∧ tx = t)) as Hlook.
  { intros x tx H.
    apply lookup_push_child in H
      as [(? & ? & H) | [(-> & tp & H & ->) | (? & -> & ->)]]; [| | |done].
    - left. exists tx. eauto 10.
    - left. exists tp. repeat split; try done.
      simpl. intros c [?| ->%list_elem_of_singleton]%elem_of_app; eauto.
    - by right. }
  split; rewrite ?length_push_child, ?length_app; simpl.
  - intros r tr c H Hin.
    apply Hlook in H as [(t0 & ? & H & _ & _ & _ & Hch0)|[-> ->]].
    + apply Hch0 in Hin as [Hin|[-> ->]]; [|lia].
      specialize (Hc _ _ _ H Hin). lia.
    + rewrite Hch in Hin. by apply elem_of_nil in Hin.
  - done.
  - intros a Ha. apply Hrb in Ha. lia.
  - intros s [Hs'| ->%list_elem_of_singleton]%elem_of_app; [|lia].
    apply HK', Hsb in Hs'. lia.
  - intros s a [Hs'| ->%list_elem_of_singleton]%elem_of_app Ha.
    + by apply Hsa; [apply HK'|].
    + apply Hrb in Ha. lia.
  - intros r tr c a H Hin Ha Hra.
    apply Hlook in H as [(t0 & ? & H & _ & _ & _ & Hch0)|[-> ->]].
    + apply Hch0 in Hin as [Hin|[-> ->]]; [by eapply Hsep|].
      specialize (Hsa _ _ HpK Ha). lia.
    + rewrite Hch in Hin. by apply elem_of_nil in Hin.
  - intros r tr H.
    apply Hlook in H as [(t0 & ? & H & _ & -> & -> & _)|[-> ->]]; eauto.
  - intros r tr H.
    apply Hlook in H as [(t0 & ? & H & -> & _)|[-> ->]].
    + destruct (Hid _ _ H) as (k & ? & ?). exists k. split; [done | lia].
    + exists n. split; [done | lia].
  - intros r1 r2 t1 t2 H1 H2 Heq.
    apply Hlook in H1 as [(t0 & ? & H1 & Hid1 & _)|[-> ->]];
      apply Hlook in H2 as [(t0' & ? & H2 & Hid2 & _)|[-> ->]];
      [|exfalso|exfalso|done].
    + rewrite Hid1, Hid2 in Heq. by eauto.
    + destruct (Hid _ _ H1) as (k & Hk & ?).
      rewrite Hid1, Hk, Hi in Heq. apply trace_id_inj in Heq. lia.
    + destruct (Hid _ _ H2) as (k & Hk & ?).
      rewrite Hid2, Hk, Hi in Heq. apply trace_id_inj in Heq. lia.
Qed.

(** The index read after [slice(0, depth)] exists: the second branch of
    [attach] never takes its [None] case. *)
Lemma attach_slice_defined (K : list ref) d :
  d ≠ 0 → d ≤ length K → ∃ p, take d K !! (d - 1) = Some p ∧ p ∈ K.
Proof.
  intros Hd Hle.
  destruct (lookup_lt_is_Some_2 K (d - 1)) as [p Hp]; [lia|].
  exists p. split; [|by eapply list_elem_of_lookup_2].
  rewrite lookup_take_lt by lia. done.
Qed.

Lemma attach_Inv prev st t :
  Inv (heap st) (prev ++ rootTraces st) (currentStack st) (lineId st) →
  fresh_trace t (lineId st) →
  Inv (heap (attach st t)) (prev ++ rootTraces (attach st t))
      (currentStack (attach st t)) (lineId (attach st t)).
Proof.
  intros HI Hf. unfold attach.
  case_bool_decide as Hd; simpl.
  { rewrite app_assoc. by eapply Inv_alloc_root. }
  case_bool_decide as Hle; simpl.
  { destruct (attach_slice_defined (currentStack st) (depth t))
      as (p & -> & Hp); [done..|]. simpl.
    apply (Inv_alloc_child _ _ (currentStack st)); [done..|].
    intros s (i & Hs & _)%elem_of_take. by eapply list_elem_of_lookup_2. }
  case_bool_decide as Hgt; simpl.
  { destruct (last (currentStack st)) as [p|] eqn:Hlast; simpl.
    - apply (Inv_alloc_child _ _ (currentStack st)); [done.. | | done].
      by apply last_Some_elem_of.
    - by apply Inv_alloc_drop. }
  by apply Inv_alloc_drop.
Qed.

Lemma parseLine_Inv prev st line :
  Inv (heap st) (prev ++ rootTraces st) (currentStack st) (lineId st) →
  Inv (heap (parseLine st line)) (prev ++ rootTraces (parseLine st line))
      (currentStack (parseLine st line)) (lineId (parseLine st line)).
Proof.
  intros HI. unfold parseLine.
  destruct (classifyLine line (lineId st)) as [t|] eqn:Hc; [|done].
  apply attach_Inv; [done|]. by eapply classifyLine_fresh.
Qed.

Lemma attach_lineId st t : lineId (attach st t) = S (lineId st).
Proof. unfold attach. by repeat (case_bool_decide || case_match). Qed.

Lemma parseLine_lineId st line :
  lineId st ≤ lineId (parseLine st line) ≤ S (lineId st).
Proof.
  unfold parseLine. destruct (classifyLine _ _); [|lia].
  rewrite attach_lineId. lia.
Qed.

Lemma parseLines_Inv prev lines : ∀ st,
  Inv (heap st) (prev ++ rootTraces st) (currentStack st) (lineId st) →
  let st' := foldl parseLine st lines in
  Inv (heap st') (prev ++ rootTraces st') (currentStack st') (lineId st') ∧
  lineId st' ≤ lineId st + length lines.
Proof.
  induction lines as [|line lines IH]; intros st HI; simpl.
  { split; [done | lia]. }
  destruct (IH (parseLine st line)) as [HI' Hn]; [by apply parseLine_Inv|].
  split; [done|]. pose proof (parseLine_lineId st line). simpl in Hn. lia.
Qed.

(** Between two sections the stack is discarded and the counter jumps to
    the start value of the next run. *)
Lemma Inv_next_section h R K n m : Inv h R K n → n ≤ m → Inv h R [] m.
Proof.
  intros [Hc Hs Hrb Hsb Hsa Hsep Hu Hid Hinj] Hnm.
  split; try done.
  - intros s Hs'. by apply elem_of_nil in Hs'.
  - intros s a Hs'. by apply elem_of_nil in Hs'.
  - intros r t H. destruct (Hid _ _ H) as (k & ? & ?).
    exists k. split; [done | lia].
Qed.

Lemma parseSection_Inv fs section :
  Inv (fheap fs) (allTraces fs) [] (globalLineId fs) →
  let fs' := parseSection fs section in
  Inv (fheap fs') (allTraces fs') [] (globalLineId fs').
Proof.
  intros HI. unfold parseSection, parseTraceLines, parseTraceLines_from.
  simpl.
  destruct (parseLines_Inv (allTraces fs) (split_lines section)
              (mkPState (fheap fs) [] [] (globalLineId fs))) as [HI' Hn].
  { simpl. by rewrite app_nil_r. }
  eapply Inv_next_section; [exact HI' | exact Hn].
Qed.

Lemma parseSections_Inv text :
  let fs := parseSections text in
  Inv (fheap fs) (allTraces fs) [] (globalLineId fs).
Proof.
  unfold parseSections.
  assert (∀ l fs, Inv (fheap fs) (allTraces fs) [] (globalLineId fs) →
            let fs' := foldl parseSection fs l in
            Inv (fheap fs') (allTraces fs') [] (globalLineId fs')) as H.
  { induction l as [|s l IH]; intros fs HI; simpl; [done|].
    apply IH. by apply parseSection_Inv. }
  apply H. simpl. apply Inv_empty.
Qed.

(** ** The forest inside the store *)

Lemma same_children_lookup h h' x t' :
  same_children h h' → h' !! x = Some t' →
  ∃ t, h !! x = Some t ∧ children t' = children t.
Proof.
  intros [Hlen Hsame] H'.
  destruct (lookup_lt_is_Some_2 h x) as [t Ht].
  { rewrite <- Hlen. by eapply lookup_lt_Some. }
  destruct (Hsame _ _ Ht) as (t'' & ? & ?). simplify_eq. eauto.
Qed.

Lemma descendant_same_children h h' r n :
  same_children h h' → descendant h r n ↔ descendant h' r n.
Proof.
  intros Hs. split.
  - induction 1 as [|r t c n Ht Hc _ IH]; [constructor|].
    destruct (proj2 Hs _ _ Ht) as (t' & Ht' & Hch).
    eapply desc_step; [done | by rewrite Hch | done].
  - induction 1 as [|r t' c n Ht' Hc _ IH]; [constructor|].
    destruct (same_children_lookup _ _ _ _ Hs Ht') as (t & Ht & Hch).
    eapply desc_step; [done | by rewrite <- Hch | done].
Qed.

Lemma children_ordered_same h h' :
  same_children h h' → children_ordered h → children_ordered h'.
Proof.
  intros Hs Ho r t' c Ht' Hc.
  destruct (same_children_lookup _ _ _ _ Hs Ht') as (t & Ht & Hch).
  rewrite Hch in Hc. rewrite (proj1 Hs). by eapply Ho.
Qed.

Lemma descendant_ge h r n :
  children_ordered h → descendant h r n → r ≤ n.
Proof.
  intros Ho. induction 1 as [|r t c n Ht Hc _ IH]; [done|].
  specialize (Ho _ _ _ Ht Hc). lia.
Qed.

Lemma descendant_below h a b n :
  (∀ r t c, h !! r = Some t → c ∈ children t → r < b → c < b) →
  a < b → descendant h a n → n < b.
Proof.
  intros Hsep Hab. induction 1 as [|r t c n Ht Hc _ IH]; [done|].
  apply IH. by eapply Hsep.
Qed.

(** ** The stack-id pass *)

Lemma stack_frame_refl lo sid h : stack_frame lo sid h h.
Proof.
  split; [done|]. intros x t Ht. exists t.
  split; [done|]. split; [by destruct t | by left].
Qed.

Lemma stack_frame_trans lo sid h1 h2 h3 :
  stack_frame lo sid h1 h2 → stack_frame lo sid h2 h3 →
  stack_frame lo sid h1 h3.
Proof.
  intros [Hl1 H1] [Hl2 H2]. split; [congruence|].
  intros x t Ht. destruct (H1 _ _ Ht) as (t2 & Ht2 & E2 & Hs2).
  destruct (H2 _ _ Ht2) as (t3 & Ht3 & E3 & Hs3).
  exists t3. split; [done|]. split.
  - rewrite E3, E2. by destruct t.
  - destruct Hs3 as [Hs3|?]; [|by right]. rewrite Hs3. done.
Qed.

Lemma stack_frame_weaken lo lo' sid h h' :
  lo ≤ lo' → stack_frame lo' sid h h' → stack_frame lo sid h h'.
Proof.
  intros Hle [Hl H]. split; [done|]. intros x t Ht.
  destruct (H _ _ Ht) as (t' & ? & ? & [?|[? ?]]); exists t';
    repeat split; auto. right. split; [lia | done].
Qed.

Lemma stack_frame_same_children lo sid h h' :
  stack_frame lo sid h h' → same_children h h'.
Proof.
  intros [Hl H]. split; [done|]. intros x t Ht.
  destruct (H _ _ Ht) as (t' & ? & E & _). exists t'.
  split; [done|]. by rewrite E.
Qed.

Lemma stack_frame_alter sid r h :
  stack_frame r sid h (alter (set_stackId (Some sid)) r h).
Proof.
  split; [apply length_alter|]. intros x t Ht.
  destruct (decide (x = r)) as [->|Hne].
  - exists (set_stackId (Some sid) t).
    rewrite list_lookup_alter_eq, Ht. split; [done|].
    split; [done|]. right. done.
  - exists t. rewrite list_lookup_alter_ne by done.
    split; [done|]. split; [by destruct t | by left].
Qed.

Lemma stack_frame_keeps lo sid h h' x t t' :
  stack_frame lo sid h h' →
  h !! x = Some t → h' !! x = Some t' →
  stackId t = Some sid → stackId t' = Some sid.
Proof.
  intros [_ H] Ht Ht' Hs. destruct (H _ _ Ht) as (t'' & ? & _ & Hor).
  simplify_eq. destruct Hor as [-> | [_ ?]]; done.
Qed.

Lemma stack_frame_below lo sid h h' x t :
  stack_frame lo sid h h' → x < lo → h !! x = Some t → h' !! x = Some t.
Proof.
  intros [_ H] Hx Ht. destruct (H _ _ Ht) as (t' & Ht' & E & Hor).
  destruct Hor as [Hs | [? _]]; [|lia].
  rewrite Ht', E, Hs. by destruct t.
Qed.

(** With fuel beyond the distance to the end of the store, the pass over
    [l] ends and marks every node below the listed ones. *)
Lemma assignStackIds_spec lo sid k : ∀ h l,
  children_ordered h →
  (∀ r, r ∈ l → lo ≤ r ∧ r < length h ∧ length h < r + k) →
  0 < k →
  ∃ h', assignStackIds k h l sid = Some h' ∧
        stack_frame lo sid h h' ∧
        ∀ r n t', r ∈ l → descendant h r n → h' !! n = Some t' →
                  stackId t' = Some sid.
Proof.
  induction k as [|k IH]; intros h l Ho Hl Hk; [lia|].
  revert h Ho Hl. induction l as [|r l IHl]; intros h Ho Hl.
  { exists h. split; [done|]. split; [apply stack_frame_refl|].
    intros r n t' Hr. by apply elem_of_nil in Hr. }
  destruct (Hl r) as (Hlo & Hr & Hfuel); [by left|].
  destruct (lookup_lt_is_Some_2 h r Hr) as [t Ht].
  pose proof (stack_frame_alter sid r h) as Hf1.
  set (h1 := alter (set_stackId (Some sid)) r h) in *.
  assert (h1 !! r = Some (set_stackId (Some sid) t)) as Ht1.
  { unfold h1. by rewrite list_lookup_alter_eq, Ht. }
  pose proof (stack_frame_same_children _ _ _ _ Hf1) as Hs1.
  pose proof (children_ordered_same _ _ Hs1 Ho) as Ho1.
  (* the children of [r] *)
  assert (∃ h2, (if bool_decide (0 < length (children t))
                 then assignStackIds k h1 (children t) sid
                 else Some h1) = Some h2 ∧
                stack_frame lo sid h1 h2 ∧
                ∀ c n t', c ∈ children t → descendant h1 c n →
                          h2 !! n = Some t' → stackId t' = Some sid)
    as (h2 & Hrun & Hf2 & Hd2).
  { case_bool_decide as Hne.
    - apply IH; [done | |].
      + intros c Hc. specialize (Ho _ _ _ Ht Hc).
        rewrite (proj1 Hs1). lia.
      + destruct (children t) as [|c cs] eqn:E; [simpl in Hne; lia|].
        specialize (Ho _ _ c Ht). rewrite E in Ho.
        specialize (Ho ltac:(by left)). lia.
    - exists h1. split; [done|]. split; [apply stack_frame_refl|].
      intros c n t' Hc. destruct (children t); [|simpl in Hne; lia].
      by apply elem_of_nil in Hc. }
  rewrite (assignStackIds_cons_Some _ _ _ _ _ _ _ Ht Hrun).
  pose proof (stack_frame_same_children _ _ _ _ Hf2) as Hs2.
  destruct (IHl h2) as (h' & -> & Hf3 & Hd3).
  { by eapply children_ordered_same. }
  { intros r' Hr'. rewrite (proj1 Hs2), (proj1 Hs1). apply Hl. by right. }
  exists h'. split; [done|].
  assert (stack_frame lo sid h h2) as Hf12.
  { eapply stack_frame_trans; [|done].
    by apply (stack_frame_weaken lo r). }
  split; [by eapply stack_frame_trans|].
  intros r' n t' Hr' Hdesc Hn.
  destruct (same_children_lookup _ _ _ _
              (stack_frame_same_children _ _ _ _ Hf3) Hn) as (t2 & Hn2 & _).
  apply elem_of_cons in Hr' as [->|Hr'].
  - apply (stack_frame_keeps lo sid h2 h' n t2 t' Hf3 Hn2 Hn).
    inversion Hdesc as [|? t0 c ? Ht0 Hc Hcn]; simplify_eq.
    + destruct (proj2 Hf2 _ _ Ht1) as (t2' & ? & _ & [Heq|[_ ?]]);
        by simplify_eq.
    + eapply Hd2; [done | | done].
      by apply (descendant_same_children h h1).
  - eapply Hd3; [done | | done].
    apply (descendant_same_children h1 h2); [done|].
    by apply (descendant_same_children h h1).
Qed.

Lemma stack_frame_stackIds_only lo sid h h' :
  stack_frame lo sid h h' → stackIds_only h h'.
Proof.
  intros [Hl H]. split; [done|]. intros x t Ht.
  destruct (H _ _ Ht) as (t' & ? & ? & _). eauto.
Qed.

Lemma stackIds_only_trans h1 h2 h3 :
  stackIds_only h1 h2 → stackIds_only h2 h3 → stackIds_only h1 h3.
Proof.
  intros [Hl1 H1] [Hl2 H2]. split; [congruence|].
  intros x t Ht. destruct (H1 _ _ Ht) as (t2 & Ht2 & E2).
  destruct (H2 _ _ Ht2) as (t3 & Ht3 & E3).
  exists t3. split; [done|]. rewrite E3, E2. by destruct t.
Qed.

Lemma stackIds_only_same_children h h' :
  stackIds_only h h' → same_children h h'.
Proof.
  intros [Hl H]. split; [done|]. intros x t Ht.
  destruct (H _ _ Ht) as (t' & ? & E). exists t'.
  split; [done|]. by rewrite E.
Qed.

Lemma assignRoots_cons_Some fuel h a l i t h2 :
  h !! a = Some t →
  assignStackIds fuel (alter (set_stackId (Some i)) a h) (children t) i
    = Some h2 →
  assignRoots fuel h (a :: l) i = assignRoots fuel h2 l (S i).
Proof.
  intros Ht H. simpl. rewrite list_lookup_alter_eq, Ht. simpl. by rewrite H.
Qed.

(** The pass over the top-level sequence: with fuel beyond the size of the
    store it ends, and every node below the [j]-th root carries the index
    of that root. *)
Lemma assignRoots_spec fuel l : ∀ h i,
  children_ordered h →
  (∀ a, a ∈ l → a < length h) →
  (∀ j1 j2 a b, l !! j1 = Some a → l !! j2 = Some b → j1 < j2 → a < b) →
  (∀ r t c a, h !! r = Some t → c ∈ children t → a ∈ l → r < a → c < a) →
  length h < fuel →
  ∃ h', assignRoots fuel h l i = Some h' ∧
        stackIds_only h h' ∧
        (∀ x t, (∀ a, a ∈ l → x < a) → h !! x = Some t → h' !! x = Some t) ∧
        ∀ j a n t', l !! j = Some a → descendant h a n → h' !! n = Some t' →
                    stackId t' = Some (i + j).
Proof.
  induction l as [|a l IH]; intros h i Ho Hb Hsort Hsep Hfuel.
  { exists h. split; [done|]. split.
    - split; [done|]. intros x t Ht. exists t. split; [done | by destruct t].
    - split; [done|]. intros j a n t' Hj. by rewrite lookup_nil in Hj. }
  assert (a < length h) as Ha by (apply Hb; by left).
  destruct (lookup_lt_is_Some_2 h a Ha) as [t Ht].
  pose proof (stack_frame_alter i a h) as Hf1.
  set (h1 := alter (set_stackId (Some i)) a h) in *.
  assert (h1 !! a = Some (set_stackId (Some i) t)) as Ht1.
  { unfold h1. by rewrite list_lookup_alter_eq, Ht. }
  pose proof (stack_frame_same_children _ _ _ _ Hf1) as Hs1.
  destruct (assignStackIds_spec a i fuel h1 (children t))
    as (h2 & Hrun & Hf2 & Hd2).
  { by eapply children_ordered_same. }
  { intros c Hc. specialize (Ho _ _ _ Ht Hc). rewrite (proj1 Hs1). lia. }
  { lia. }
  rewrite (assignRoots_cons_Some _ _ _ _ _ _ _ Ht Hrun).
  pose proof (stack_frame_same_children _ _ _ _ Hf2) as Hs2.
  assert (stack_frame a i h h2) as Hf12 by by eapply stack_frame_trans.
  pose proof (stack_frame_same_children _ _ _ _ Hf12) as Hs12.
  destruct (IH h2 (S i)) as (h' & -> & Hso & Hkeep & Hd3).
  { by eapply children_ordered_same. }
  { intros b Hin. rewrite (proj1 Hs12). apply Hb. by right. }
  { intros j1 j2 b1 b2 H1 H2 Hlt.
    apply (Hsort (S j1) (S j2)); [done.. | lia]. }
  { intros r tr c b Hr Hc Hin Hlt.
    destruct (same_children_lookup _ _ _ _ Hs12 Hr) as (tr0 & Hr0 & Hch).
    rewrite Hch in Hc. eapply Hsep; [done.. | by right | done]. }
  { by rewrite (proj1 Hs12). }
  exists h'. split; [done|]. split.
  { eapply stackIds_only_trans; [|done].
    by eapply stack_frame_stackIds_only. }
  split.
  { intros x tx Hx Htx. apply Hkeep.
    - intros b Hin. apply Hx. by right.
    - eapply stack_frame_below; [done | | done]. apply Hx. by left. }
  intros j b n t' Hj Hdesc Hn.
  destruct j as [|j]; simpl in Hj.
  - simplify_eq. rewrite Nat.add_0_r.
    destruct (same_children_lookup _ _ _ _
                (stackIds_only_same_children _ _ Hso) Hn) as (t2 & Hn2 & _).
    assert (h' !! n = Some t2) as Hn'.
    { apply Hkeep; [|done]. intros c Hin.
      apply list_elem_of_lookup_1 in Hin as [jc Hjc].
      eapply (descendant_below h b c n); [|  | done].
      - intros r tr c' Hr Hc' Hlt.
        eapply Hsep; [done.. | | done]. right. by eapply list_elem_of_lookup_2.
      - apply (Hsort 0 (S jc)); [done.. | lia]. }
    simplify_eq.
    inversion Hdesc as [|? t0 c ? Ht0 Hc Hcn]; simplify_eq.
    + eapply (stack_frame_keeps _ i h1 h2); done.
    + eapply Hd2; [done | | done].
      by apply (descendant_same_children h h1).
  - rewrite Nat.add_succ_r. eapply (Hd3 j b); [done | | done].
    by apply (descendant_same_children h h2).
Qed.

(** The whole of [parseTraceFile]: the section loop establishes the
    invariant, the stack-id pass ends. *)
Lemma parseTraceFile_spec text :
  let fs := parseSections text in
  ∃ h, (∀ fuel, length h < fuel →
          parseTraceFile fuel text = Some (h, allTraces fs)) ∧
       stackIds_only (fheap fs) h ∧
       ∀ j a n t, allTraces fs !! j = Some a → descendant h a n →
                  h !! n = Some t → stackId t = Some j.
Proof.
  intros fs. pose proof (parseSections_Inv text) as HI. fold fs in HI.
  simpl in HI. destruct HI as [Hc Hs Hrb _ _ Hsep _ _ _].
  destruct (assignRoots_spec (S (length (fheap fs))) (allTraces fs)
              (fheap fs) 0) as (h & Hrun & Hso & _ & Hd); [done.. | lia |].
  exists h. split; [|split; [done|]].
  - intros fuel Hfuel. unfold parseTraceFile. fold fs.
    rewrite (assignRoots_fuel_mono (S (length (fheap fs))) fuel _ _ _ h);
      [done | | done].
    rewrite (proj1 Hso) in Hfuel. lia.
  - intros j a n t Hj Hdesc Hn. eapply (Hd j a n t); [done | | done].
    by apply (descendant_same_children (fheap fs) h);
      [apply stackIds_only_same_children|].
Qed.

(** ** Stack ids *)

(** C7. After the post-pass of [parseTraceFile], every node of the forest
    carries as [stackId] the index of its top-level root in the flat root
    sequence, at any depth below that root; and the sample document with
    two sections of one root line each gives two roots with stack ids 0
    and 1. *)
Theorem stackId_is_root_index :
  (∀ text, ∃ h roots,
     (∀ fuel, length h < fuel →
        parseTraceFile fuel text = Some (h, roots)) ∧
     ∀ j a n t,
       roots !! j = Some a → descendant h a n → h !! n = Some t →
       stackId t = Some j) ∧
  (∃ h ta tb,
     parseTraceFile 3 example2 = Some (h, [0; 1]) ∧
     h !! 0 = Some ta ∧ stackId ta = Some 0 ∧
     h !! 1 = Some tb ∧ stackId tb = Some 1).
Proof.
  split.
  - intros text. destruct (parseTraceFile_spec text) as (h & Hrun & _ & Hd).
    exists h, (allTraces (parseSections text)). split; [done|]. exact Hd.
  - do 3 eexists. split; [vm_compute; reflexivity|]. by repeat split.
Qed.

Lemma stackId_is_root_index_witness :
  ∃ h t, parseTraceFile 9 nested_document = Some (h, [0; 3]) ∧
         h !! 4 = Some t ∧ stackId t = Some 1.
Proof.
  destruct (proj1 stackId_is_root_index nested_document)
    as (h & roots & Hrun & Hd).
  assert (parseTraceFile 9 nested_document
          = Some (h, roots)) as Hrun9.
  { apply Hrun.
    destruct (parseTraceFile 9 nested_document) as [[h9 r9]|] eqn:E9;
      [|by vm_compute in E9].
    assert (length h9 = 5) as Hlen.
    { vm_compute in E9. by simplify_eq. }
    assert (parseTraceFile (S (length h)) nested_document = Some (h, roots))
      as Hmin by (apply Hrun; lia).
    destruct (decide (S (length h) ≤ 9)) as [Hle|Hgt].
    - rewrite (parseTraceFile_fuel_mono _ 9 _ _ Hle Hmin) in E9.
      simplify_eq. lia.
    - rewrite (parseTraceFile_fuel_mono 9 (S (length h)) _ _
                 ltac:(lia) E9) in Hmin.
      simplify_eq. lia. }
  assert (∃ t, roots = [0; 3] ∧ h !! 4 = Some t ∧
               descendant h 3 4) as (t & -> & Ht & Hdesc).
  { vm_compute in Hrun9. simplify_eq. eexists. split; [done|].
    split; [done|].
    eapply desc_step; [done | by left | constructor]. }
  exists h, t. split; [done|]. split; [done|].
  by apply (Hd 1 3 4 t).
Defined.

(** ** Identifiers across sections *)

(** With the global counter of [parseTraceFile], two distinct objects of
    one document never share an id. *)
Lemma parseTraceFile_ids_unique text :
  ∃ h roots,
    (∀ fuel, length h < fuel → parseTraceFile fuel text = Some (h, roots)) ∧
    ∀ r1 r2 t1 t2,
      h !! r1 = Some t1 → h !! r2 = Some t2 → id t1 = id t2 → r1 = r2.
Proof.
  destruct (parseTraceFile_spec text) as (h & Hrun & Hso & _).
  exists h, (allTraces (parseSections text)). split; [done|].
  pose proof (parseSections_Inv text) as HI. simpl in HI.
  destruct HI as [_ _ _ _ _ _ _ _ Hinj].
  intros r1 r2 t1 t2 H1 H2 Heq.
  destruct (lookup_lt_is_Some_2 (fheap (parseSections text)) r1) as [u1 Hu1].
  { rewrite <- (proj1 Hso). by eapply lookup_lt_Some. }
  destruct (lookup_lt_is_Some_2 (fheap (parseSections text)) r2) as [u2 Hu2].
  { rewrite <- (proj1 Hso). by eapply lookup_lt_Some. }
  destruct (proj2 Hso _ _ Hu1) as (t1' & ? & E1).
  destruct (proj2 Hso _ _ Hu2) as (t2' & ? & E2). simplify_eq.
  apply (Hinj r1 r2 u1 u2); [done..|].
  rewrite E1, E2 in Heq. done.
Qed.

(** C1. In the variant of [src/App.tsx] the counter restarts in every
    section: the two roots of the two-section sample document are distinct
    objects with the same id, the one of line 0. *)
Theorem AppTsx_ids_collide :
  ∃ h ta tb,
    AppTsx.parseTraceFile 3 example2 = Some (h, [0; 1]) ∧
    h !! 0 = Some ta ∧ h !! 1 = Some tb ∧
    id ta = trace_id 0 ∧ id tb = trace_id 0.
Proof.
  do 3 eexists. split; [vm_compute; reflexivity|]. by repeat split.
Qed.

(** ** Skipped levels and orphans *)

(** C4. A node whose depth exceeds the length of a non-empty stack becomes
    the last child of the node on top of the stack and is pushed; exactly
    one object is allocated (no placeholder), the roots and every other
    object are untouched.  In the sample, a line of depth 3 right after a
    root is a direct child of that root. *)
Theorem skip_level_attaches_to_top :
  (∀ st t p,
     last (currentStack st) = Some p →
     p < length (heap st) →
     length (currentStack st) < depth t →
     let r := length (heap st) in
     let st' := attach st t in
     length (heap st') = S (length (heap st)) ∧
     rootTraces st' = rootTraces st ∧
     currentStack st' = currentStack st ++ [r] ∧
     heap st' !! r = Some t ∧
     (∃ tp, heap st !! p = Some tp ∧
            heap st' !! p = Some (set_children (children tp ++ [r]) tp)) ∧
     (∀ x, x ≠ p → x < r → heap st' !! x = heap st !! x)) ∧
  (∃ h root deep,
     parseTraceLines [] example3_lines 0 = (h, [0]) ∧
     length h = 2 ∧
     h !! 0 = Some root ∧ depth root = 0 ∧ children root = [1] ∧
     h !! 1 = Some deep ∧ depth deep = 3).
Proof.
  split.
  - intros st t p Hlast Hp Hd r st'. subst r st'. unfold attach.
    assert (0 < length (currentStack st)) as Hne.
    { destruct (currentStack st); [done | simpl; lia]. }
    rewrite bool_decide_eq_false_2 by lia.
    rewrite bool_decide_eq_false_2 by lia.
    rewrite bool_decide_eq_true_2 by done.
    rewrite Hlast. simpl.
    destruct (lookup_lt_is_Some_2 (heap st) p Hp) as [tp Htp].
    rewrite length_push_child, length_app. simpl.
    unfold push_child.
    split; [lia|]. split; [done|]. split; [done|]. split.
    { rewrite list_lookup_alter_ne by lia. by rewrite list_lookup_middle. }
    split.
    { exists tp. split; [done|].
      by rewrite list_lookup_alter_eq, lookup_app_l, Htp. }
    intros x Hx Hlt. rewrite list_lookup_alter_ne by done.
    by rewrite lookup_app_l.
  - do 3 eexists. split; [vm_compute; reflexivity|]. by repeat split.
Qed.

Lemma skip_level_attaches_to_top_witness :
  ∃ st t,
    currentStack st = [0] ∧ depth t = 3 ∧
    currentStack (attach st t) = [0; 1] ∧
    children <$> heap (attach st t) !! 0 = Some [1].
Proof.
  pose (st := foldl parseLine (mkPState [] [] [] 0) (take 1 example3_lines)).
  destruct (classifyLine (example3_lines !!! 1) (lineId st)) as [t|] eqn:Ht;
    [|by vm_compute in Ht].
  assert (depth t = 3) as Hd by (vm_compute in Ht; by simplify_eq).
  destruct (proj1 skip_level_attaches_to_top st t 0)
    as (_ & _ & Hk & _ & (tp & Htp & Hp) & _).
  { vm_compute. reflexivity. }
  { vm_compute. lia. }
  { rewrite Hd. vm_compute. lia. }
  exists st, t. split; [vm_compute; reflexivity|]. split; [done|].
  split; [exact Hk|].
  rewrite Hp. vm_compute in Htp. by simplify_eq.
Defined.

Lemma attach_unreferenced r st t :
  children t = [] →
  r < length (heap st) →
  (∀ s, s ∈ currentStack st → s < length (heap st) ∧ s ≠ r) →
  r ∉ rootTraces st →
  (∀ x tx, heap st !! x = Some tx → r ∉ children tx) →
  let st' := attach st t in
  r < length (heap st') ∧
  (∀ s, s ∈ currentStack st' → s < length (heap st') ∧ s ≠ r) ∧
  (r ∉ rootTraces st') ∧
  (∀ x tx, heap st' !! x = Some tx → r ∉ children tx).
Proof.
  intros Hch Hr Hk Hroots Hheap.
  assert (∀ x tx, (heap st ++ [t]) !! x = Some tx → r ∉ children tx) as Hsnoc.
  { intros x tx [[_ H]|[_ ->]]%heap_lookup_snoc; [by eapply Hheap|].
    rewrite Hch. apply not_elem_of_nil. }
  assert (∀ p K, p ∈ currentStack st →
            (∀ s, s ∈ K → s ∈ currentStack st) →
            let st' := mkPState (push_child (heap st ++ [t]) p
                                   (length (heap st)))
                         (rootTraces st) (K ++ [length (heap st)])
                         (S (lineId st)) in
            r < length (heap st') ∧
            (∀ s, s ∈ currentStack st' → s < length (heap st') ∧ s ≠ r) ∧
            (r ∉ rootTraces st') ∧
            (∀ x tx, heap st' !! x = Some tx → r ∉ children tx)) as Hchild.
  { intros p K Hp HK. simpl. rewrite length_push_child, length_app. simpl.
    split; [lia|]. split; [|split; [done|]].
    - intros s [Hs| ->%list_elem_of_singleton]%elem_of_app; [|lia].
      destruct (Hk s (HK s Hs)). split; [lia | done].
    - intros x tx H. apply lookup_push_child in H
        as [(_ & _ & H) | [(-> & tp & H & ->) | (_ & _ & ->)]].
      + by eapply Hheap.
      + simpl. intros [Hin| ->%list_elem_of_singleton]%elem_of_app; [|lia].
        by eapply Hheap.
      + rewrite Hch. apply not_elem_of_nil.
      + by apply Hk. }
  assert (∀ K, (∀ s, s ∈ K → s ∈ currentStack st) →
            let st' := mkPState (heap st ++ [t]) (rootTraces st) K
                         (S (lineId st)) in
            r < length (heap st') ∧
            (∀ s, s ∈ currentStack st' → s < length (heap st') ∧ s ≠ r) ∧
            (r ∉ rootTraces st') ∧
            (∀ x tx, heap st' !! x = Some tx → r ∉ children tx)) as Hdrop.
  { intros K HK. simpl. rewrite length_app. simpl.
    split; [lia|]. split; [|split; done].
    intros s Hs. destruct (Hk s (HK s Hs)). split; [lia | done]. }
  unfold attach. case_bool_decide; simpl.
  { rewrite length_app. simpl. split; [lia|]. split; [|split; [|done]].
    - intros s ->%list_elem_of_singleton. lia.
    - intros [?| ->%list_elem_of_singleton]%elem_of_app; [done | lia]. }
  assert (∀ s, s ∈ take (depth t) (currentStack st) → s ∈ currentStack st)
    as Htake.
  { intros s (i & Hs & _)%elem_of_take. by eapply list_elem_of_lookup_2. }
  case_bool_decide.
  { destruct (take (depth t) (currentStack st) !! (depth t - 1)) as [p|] eqn:E.
    - apply Hchild; [|done]. by apply Htake, (list_elem_of_lookup_2 _ _ _ E).
    - by apply Hdrop. }
  case_bool_decide.
  { destruct (last (currentStack st)) as [p|] eqn:E.
    - apply Hchild; [by apply last_Some_elem_of | done].
    - by apply Hdrop. }
  by apply Hdrop.
Qed.

Lemma parseLines_unreferenced r lines : ∀ st,
  r < length (heap st) →
  (∀ s, s ∈ currentStack st → s < length (heap st) ∧ s ≠ r) →
  r ∉ rootTraces st →
  (∀ x tx, heap st !! x = Some tx → r ∉ children tx) →
  let st' := foldl parseLine st lines in
  (r ∉ rootTraces st') ∧ (∀ x tx, heap st' !! x = Some tx → r ∉ children tx).
Proof.
  induction lines as [|line lines IH]; intros st Hr Hk Hroots Hheap; simpl.
  { done. }
  unfold parseLine at 2 4.
  destruct (classifyLine line (lineId st)) as [t|] eqn:Hc; [|by apply IH].
  apply classifyLine_Some in Hc as (_ & _ & _ & _ & Hch & _).
  destruct (attach_unreferenced r st t) as (? & ? & ? & ?); [done..|].
  by apply IH.
Qed.

(** C6. A node of non-zero depth met while the stack is empty is dropped:
    its object is allocated and the counter advances, but the root list,
    the stack and every earlier object stay as they were, the remaining
    lines are parsed from that state, and at the end of the run nothing
    refers to the dropped object. *)
Theorem orphan_is_dropped st line t rest :
  classifyLine line (lineId st) = Some t →
  depth t ≠ 0 →
  currentStack st = [] →
  (∀ a, a ∈ rootTraces st → a < length (heap st)) →
  children_ordered (heap st) →
  let r := length (heap st) in
  let st' := mkPState (heap st ++ [t]) (rootTraces st) [] (S (lineId st)) in
  parseLine st line = st' ∧
  foldl parseLine st (line :: rest) = foldl parseLine st' rest ∧
  let fin := foldl parseLine st (line :: rest) in
  (r ∉ rootTraces fin) ∧
  ∀ x tx, heap fin !! x = Some tx → r ∉ children tx.
Proof.
  intros Hc Hd Hk Hroots Ho r st'.
  assert (parseLine st line = st') as Hstep.
  { unfold parseLine. rewrite Hc. unfold attach. rewrite Hk. simpl.
    rewrite bool_decide_eq_false_2 by done.
    rewrite bool_decide_eq_false_2 by lia.
    rewrite bool_decide_eq_false_2 by lia. done. }
  split; [done|]. split; [by simpl; rewrite Hstep|].
  simpl. rewrite Hstep.
  apply classifyLine_Some in Hc as (_ & _ & _ & _ & Hch & _).
  apply parseLines_unreferenced; subst st' r; simpl.
  - rewrite length_app. simpl. lia.
  - intros s Hs. by apply elem_of_nil in Hs.
  - intros Hin. apply Hroots in Hin. lia.
  - intros x tx [[_ H]|[_ ->]]%heap_lookup_snoc Hin.
    + specialize (Ho _ _ _ H Hin). lia.
    + rewrite Hch in Hin. by apply elem_of_nil in Hin.
Qed.

Lemma orphan_is_dropped_witness :
  ∃ h, parseTraceLines [] orphan_lines 0 = (h, [1]) ∧
       length h = 3 ∧
       ∀ x tx, h !! x = Some tx → 0 ∉ children tx.
Proof.
  destruct (classifyLine (orphan_lines !!! 0) 0) as [t|] eqn:Ht;
    [|by vm_compute in Ht].
  destruct (orphan_is_dropped (mkPState [] [] [] 0) (orphan_lines !!! 0) t
              (drop 1 orphan_lines)) as (_ & _ & _ & Hfin).
  - exact Ht.
  - vm_compute in Ht. by simplify_eq.
  - done.
  - intros a Ha. by apply elem_of_nil in Ha.
  - intros r tr c Hr. simpl in Hr. by rewrite lookup_nil in Hr.
  - eexists. split; [vm_compute; reflexivity|]. split; [done|].
    intros x tx Hx. apply (Hfin x tx). exact Hx.
Defined.

(** ** Sections and the preamble *)

Lemma length_drop_while p s : length (drop_while p s) ≤ length s.
Proof.
  induction s as [|c s IH]; simpl; [done|].
  destruct (p c); simpl; lia.
Qed.

Lemma starts_with_marker_length s :
  starts_with section_marker s = true → length section_marker ≤ length s.
Proof.
  intros [r ->]%starts_with_spec. rewrite length_app. lia.
Qed.

Lemma split_sections_S k s cur :
  split_sections (S k) s cur =
  if starts_with section_marker s then
    cur :: split_sections k
             (drop_while is_space (drop (length section_marker) s)) []
  else match s with
       | [] => [cur]
       | c :: s' => split_sections k s' (cur ++ [c])
       end.
Proof. reflexivity. Qed.







(** ** Search *)

Lemma edge_same_children h h' p c :
  same_children h h' → edge h p c ↔ edge h' p c.
Proof.
  intros Hs. split.
  - intros (tp & Hp & Hc). destruct (proj2 Hs _ _ Hp) as (tp' & ? & E).
    exists tp'. by rewrite E.
  - intros (tp' & Hp & Hc).
    destruct (same_children_lookup _ _ _ _ Hs Hp) as (tp & ? & E).
    exists tp. by rewrite <- E.
Qed.

Lemma path_same_children h h' r l n :
  same_children h h' → path h r l n → path h' r l n.
Proof.
  intros Hs. induction 1 as [|r t c l n Ht Hc _ IH]; [constructor|].
  destruct (proj2 Hs _ _ Ht) as (t' & ? & E).
  eapply path_step; [done | by rewrite E | done].
Qed.

Lemma parent_frame_same_children lo h h' :
  parent_frame lo h h' → same_children h h'.
Proof.
  intros [Hl H]. split; [done|]. intros x t Ht.
  destruct (H _ _ Ht) as (t' & ? & E & _). exists t'.
  split; [done|]. by rewrite E.
Qed.

Lemma parent_frame_refl lo h : parent_frame lo h h.
Proof.
  split; [done|]. intros x t Ht. exists t.
  split; [done|]. split; [by destruct t | by left].
Qed.

Lemma parent_frame_trans lo h1 h2 h3 :
  parent_frame lo h1 h2 → parent_frame lo h2 h3 → parent_frame lo h1 h3.
Proof.
  intros H12 H23.
  pose proof (parent_frame_same_children _ _ _ H12) as Hs.
  destruct H12 as [Hl1 H1]. destruct H23 as [Hl2 H2].
  split; [congruence|].
  intros x t Ht. destruct (H1 _ _ Ht) as (t2 & Ht2 & E2 & Hp2).
  destruct (H2 _ _ Ht2) as (t3 & Ht3 & E3 & Hp3).
  exists t3. split; [done|]. split.
  - rewrite E3, E2. by destruct t.
  - destruct Hp3 as [Hp3 | (? & p & ? & He)].
    + by rewrite Hp3.
    + right. split; [done|]. exists p. split; [done|].
      by apply (edge_same_children h1 h2).
Qed.

Lemma parent_frame_weaken lo lo' h h' :
  lo ≤ lo' → parent_frame lo' h h' → parent_frame lo h h'.
Proof.
  intros Hle [Hl H]. split; [done|]. intros x t Ht.
  destruct (H _ _ Ht) as (t' & ? & ? & [?|[? ?]]); exists t';
    repeat split; auto. right. split; [lia | done].
Qed.

Lemma parent_frame_alter h r c :
  edge h r c → r < c →
  parent_frame r h (alter (set_parent (Some r)) c h).
Proof.
  intros He Hlt. split; [apply length_alter|]. intros x t Ht.
  destruct (decide (x = c)) as [->|Hne].
  - exists (set_parent (Some r) t).
    rewrite list_lookup_alter_eq, Ht. split; [done|].
    split; [done|]. right. eauto.
  - exists t. rewrite list_lookup_alter_ne by done.
    split; [done|]. split; [by destruct t | by left].
Qed.

Lemma parent_frame_low lo h h' x t :
  parent_frame lo h h' → x ≤ lo → h !! x = Some t → h' !! x = Some t.
Proof.
  intros [_ H] Hx Ht. destruct (H _ _ Ht) as (t' & Ht' & E & Hor).
  destruct Hor as [Hs | [? _]]; [|lia].
  rewrite Ht', E, Hs. by destruct t.
Qed.

Lemma parent_frame_payload lo h h' x t t' :
  parent_frame lo h h' → h !! x = Some t → h' !! x = Some t' →
  id t' = id t ∧ content t' = content t.
Proof.
  intros [_ H] Ht Ht'. destruct (H _ _ Ht) as (t'' & ? & E & _).
  simplify_eq. by rewrite E.
Qed.

Lemma parents_below_frame lo h h' :
  children_ordered h → parents_below h → parent_frame lo h h' →
  parents_below h'.
Proof.
  intros Ho Hp Hf r t' p Ht' Hpar.
  destruct (same_children_lookup _ _ _ _
              (parent_frame_same_children _ _ _ Hf) Ht') as (t & Ht & _).
  destruct (proj2 Hf _ _ Ht) as (t'' & ? & _ & Hor). simplify_eq.
  destruct Hor as [Heq | (_ & q & Hq & tq & Htq & Hc)].
  - eapply Hp; [done|]. by rewrite <- Heq.
  - simplify_eq. specialize (Ho _ _ _ Htq Hc). lia.
Qed.

Lemma up_frame lo h h' r a :
  parents_below h → parent_frame lo h h' → r ≤ lo → up h r a → up h' r a.
Proof.
  intros Hp Hf Hr Hup. induction Hup as [|r t p a Ht Hpar _ IH];
    [constructor|].
  eapply up_step; [by eapply parent_frame_low | done |].
  apply IH. specialize (Hp _ _ _ Ht Hpar). lia.
Qed.

Lemma linked_frame lo h h1 h2 n :
  same_children h h1 → linked h h1 n → parent_frame lo h1 h2 →
  linked h h2 n.
Proof.
  intros Hs (t1 & p & Ht1 & Hp & He) Hf.
  destruct (proj2 Hf _ _ Ht1) as (t2 & Ht2 & _ & Hor).
  destruct Hor as [Heq | (_ & q & Hq & Hq')].
  - exists t2, p. split; [done|]. split; [congruence | done].
  - exists t2, q. split; [done|]. split; [done|].
    by apply (edge_same_children h h1).
Qed.

Lemma elem_of_set_add y x m : y ∈ set_add x m ↔ y = x ∨ y ∈ m.
Proof.
  unfold set_add. case_bool_decide as Hin.
  - split; [by right | by intros [->|?]].
  - rewrite elem_of_app, list_elem_of_singleton. tauto.
Qed.

Section SearchProps.

Variable toLowerCase : jsstring → jsstring.

Lemma addParents_spec k : ∀ h cur m,
  parents_below h → cur < length h → cur < k →
  ∃ m', addParents k h cur m = Some m' ∧
        (∀ y, y ∈ m → y ∈ m') ∧
        ∀ a ta, up h cur a → a ≠ cur → h !! a = Some ta → id ta ∈ m'.
Proof.
  induction k as [|k IH]; intros h cur m Hp Hcur Hk; [lia|].
  destruct (lookup_lt_is_Some_2 h cur Hcur) as [t Ht].
  simpl. rewrite Ht. simpl.
  destruct (parent t) as [p|] eqn:Hpar.
  - pose proof (Hp _ _ _ Ht Hpar) as Hlt.
    destruct (lookup_lt_is_Some_2 h p) as [pt Hpt]; [lia|].
    rewrite Hpt. simpl.
    destruct (IH h p (set_add (id pt) m)) as (m' & -> & Hsub & Hup);
      [done | lia | lia |].
    exists m'. split; [done|]. split.
    + intros y Hy. apply Hsub, elem_of_set_add. by right.
    + intros a ta Ha Hne Hta.
      inversion Ha as [|? t0 p0 ? Ht0 Hp0 Hup0]; simplify_eq.
      destruct (decide (a = p)) as [->|Hne'].
      * simplify_eq. apply Hsub, elem_of_set_add. by left.
      * by eapply Hup.
  - exists m. split; [done|]. split; [done|].
    intros a ta Ha Hne Hta.
    inversion Ha as [|? t0 p0 ? Ht0 Hp0 Hup0]; simplify_eq.
Qed.

Lemma findMatches_S k term r h m t :
  h !! r = Some t →
  findMatches toLowerCase (S k) term r (h, m) =
  m1 ← (if content_matches toLowerCase term t
        then addParents k h r (set_add (id t) m)
        else Some m);
  forEach_child (findMatches toLowerCase k term) r (children t) (h, m1).
Proof. intros Ht. simpl. by rewrite Ht. Qed.

Lemma content_matches_payload term t t' :
  content t' = content t →
  content_matches toLowerCase term t' = content_matches toLowerCase term t.
Proof. unfold content_matches. by intros ->. Qed.

(** One call of [findMatches] on the node [r]: with enough fuel it ends;
    it only moves [parent] links of nodes below [r]; the match set grows;
    for every matching node [n] below [r] the ids of the nodes on the path
    from [r] to [n], and of the nodes above [r] along the [parent] links,
    are in the set; and every node strictly below [r] is linked to a
    parent. *)
Lemma findMatches_spec term k : ∀ r h m,
  children_ordered h → parents_below h →
  r < length h → 2 * length h ≤ k + r →
  ∃ h' m',
    findMatches toLowerCase k term r (h, m) = Some (h', m') ∧
    parent_frame r h h' ∧
    (∀ y, y ∈ m → y ∈ m') ∧
    (∀ l n tn, path h r l n → h !! n = Some tn →
       content_matches toLowerCase term tn = true →
       ∀ a ta, a ∈ l ∨ up h r a → h !! a = Some ta → id ta ∈ m') ∧
    (∀ n, descendant h r n → n ≠ r → linked h h' n).
Proof.
  induction k as [|k IH]; intros r h m Ho Hp Hr Hfuel; [lia|].
  destruct (lookup_lt_is_Some_2 h r Hr) as [t Ht].
  rewrite (findMatches_S _ _ _ _ _ _ Ht).
  (* the node itself *)
  assert (∃ m1,
    (if content_matches toLowerCase term t
     then addParents k h r (set_add (id t) m) else Some m) = Some m1 ∧
    (∀ y, y ∈ m → y ∈ m1) ∧
    (content_matches toLowerCase term t = true →
     ∀ a ta, up h r a → h !! a = Some ta → id ta ∈ m1))
    as (m1 & -> & Hm1 & Hself).
  { destruct (content_matches toLowerCase term t) eqn:Hmatch.
    - destruct (addParents_spec k h r (set_add (id t) m))
        as (m1 & -> & Hsub & Hup); [done | done | lia |].
      exists m1. split; [done|]. split.
      + intros y Hy. apply Hsub, elem_of_set_add. by right.
      + intros _ a ta Ha Hta. destruct (decide (a = r)) as [->|Hne].
        * simplify_eq. apply Hsub, elem_of_set_add. by left.
        * by eapply Hup.
    - exists m. by repeat split. }
  simpl.
  (* the loop over the children *)
  assert (∀ cs hi mi,
    (∀ c, c ∈ cs → c ∈ children t) →
    parent_frame r h hi →
    ∃ h' m',
      forEach_child (findMatches toLowerCase k term) r cs (hi, mi)
        = Some (h', m') ∧
      parent_frame r hi h' ∧
      (∀ y, y ∈ mi → y ∈ m') ∧
      (∀ c l n tn, c ∈ cs → path h c l n → h !! n = Some tn →
         content_matches toLowerCase term tn = true →
         ∀ a ta, a ∈ l ∨ a = r ∨ up h r a → h !! a = Some ta →
                 id ta ∈ m') ∧
      (∀ c n, c ∈ cs → descendant h c n → linked h h' n)) as Hloop.
  { induction cs as [|c cs IHcs]; intros hi mi Hcs Hfi.
    { exists hi, mi. split; [done|]. split; [apply parent_frame_refl|].
      split; [done|]. split.
      - intros c ? ? ? Hc. by apply elem_of_nil in Hc.
      - intros c ? Hc. by apply elem_of_nil in Hc. }
    assert (c ∈ children t) as Hc by (apply Hcs; by left).
    pose proof (Ho _ _ _ Ht Hc) as Hrc.
    pose proof (parent_frame_same_children _ _ _ Hfi) as Hsi.
    assert (parent_frame r hi (alter (set_parent (Some r)) c hi)) as Hfa.
    { apply parent_frame_alter; [|lia].
      apply (edge_same_children h hi); [done|]. by exists t. }
    set (hc := alter (set_parent (Some r)) c hi) in *.
    assert (parent_frame r h hc) as Hfc by by eapply parent_frame_trans.
    pose proof (parent_frame_same_children _ _ _ Hfc) as Hsc.
    destruct (IH c hc mi) as (h2 & m2 & Hrun & Hf2 & Hm2 & Hpath2 & Hlink2).
    { by eapply children_ordered_same. }
    { by eapply parents_below_frame. }
    { rewrite (proj1 Hsc). lia. }
    { rewrite (proj1 Hsc). lia. }
    assert (parent_frame r h h2) as Hfh2.
    { eapply parent_frame_trans; [done|].
      apply (parent_frame_weaken r c); [lia | done]. }
    destruct (IHcs h2 m2) as (h' & m' & Hrun' & Hf' & Hm' & Hpath' & Hlink').
    { intros c' Hc'. apply Hcs. by right. }
    { done. }
    exists h', m'. split.
    { simpl. fold hc. by rewrite Hrun. }
    split.
    { eapply parent_frame_trans; [exact Hfa|].
      eapply parent_frame_trans; [|exact Hf'].
      apply (parent_frame_weaken r c); [lia | done]. }
    split; [by auto|].
    split.
    - intros c' l n tn Hc' Hpth Hn Hmatch a ta Ha Hta.
      apply elem_of_cons in Hc' as [->|Hc']; [|by eapply Hpath'].
      apply Hm'.
      destruct (proj2 Hfc _ _ Hn) as (tn' & Hn' & En & _).
      destruct (proj2 Hfc _ _ Hta) as (ta' & Hta' & Ea & _).
      replace (id ta) with (id ta') by by rewrite Ea.
      eapply (Hpath2 l n tn'); [by eapply path_same_children | done | |
                                 | done].
      + rewrite <- Hmatch. apply content_matches_payload. by rewrite En.
      + destruct Ha as [Ha | Ha]; [by left|]. right.
        destruct (lookup_lt_is_Some_2 hi c) as [tc Htc].
        { rewrite (proj1 Hfi). lia. }
        eapply (up_step hc c (set_parent (Some r) tc) r).
        * unfold hc. by rewrite list_lookup_alter_eq, Htc.
        * done.
        * destruct Ha as [->|Ha]; [constructor|].
          by apply (up_frame r h hc).
    - intros c' n Hc' Hdesc.
      apply elem_of_cons in Hc' as [->|Hc']; [|by eapply Hlink'].
      apply (linked_frame r h h2 h' n);
        [by eapply parent_frame_same_children | | done].
      destruct (decide (n = c)) as [->|Hne].
      + destruct (lookup_lt_is_Some_2 hi c) as [tc Htc].
        { rewrite (proj1 Hfi). lia. }
        exists (set_parent (Some r) tc), r. split.
        * apply (parent_frame_low c hc h2); [done | done |].
          unfold hc. by rewrite list_lookup_alter_eq, Htc.
        * split; [done|]. by exists t.
      + destruct (Hlink2 n) as (t' & p & ? & ? & He); [|done|].
        { by apply (descendant_same_children h hc). }
        exists t', p. split; [done|]. split; [done|].
        by apply (edge_same_children h hc). }
  destruct (Hloop (children t) h m1) as (h' & m' & -> & Hf & Hm' & Hpath & Hlink).
  { done. }
  { apply parent_frame_refl. }
  exists h', m'. split; [done|]. split; [done|]. split; [by auto|]. split.
  - intros l n tn Hpth Hn Hmatch a ta Ha Hta.
    inversion Hpth as [|? t0 c l' ? Ht0 Hc Hpth']; simplify_eq.
    + apply Hm'. apply (Hself Hmatch a ta); [|done].
      destruct Ha as [->%list_elem_of_singleton | Ha]; [constructor | done].
    + eapply (Hpath c l' n tn); [done.. | | done].
      destruct Ha as [[->|Ha]%elem_of_cons | Ha]; auto.
  - intros n Hdesc Hne.
    inversion Hdesc as [|? t0 c ? Ht0 Hc Hdesc']; simplify_eq.
    by eapply Hlink.
Qed.

Lemma forEach_findMatches_spec term fuel traces : ∀ h m,
  children_ordered h → parents_below h →
  (∀ a, a ∈ traces → a < length h) →
  2 * length h ≤ fuel →
  ∃ h' m',
    forEach_findMatches toLowerCase fuel term traces (h, m) = Some (h', m') ∧
    parent_frame 0 h h' ∧
    (∀ y, y ∈ m → y ∈ m') ∧
    (∀ root l n tn, root ∈ traces → path h root l n → h !! n = Some tn →
       content_matches toLowerCase term tn = true →
       ∀ a ta, a ∈ l → h !! a = Some ta → id ta ∈ m') ∧
    (∀ root n, root ∈ traces → descendant h root n → n ≠ root →
       linked h h' n).
Proof.
  induction traces as [|r traces IH]; intros h m Ho Hp Hb Hfuel.
  { exists h, m. split; [done|]. split; [apply parent_frame_refl|].
    split; [done|]. split.
    - intros ? ? ? ? Hr. by apply elem_of_nil in Hr.
    - intros ? ? Hr. by apply elem_of_nil in Hr. }
  destruct (findMatches_spec term fuel r h m)
    as (h1 & m1 & Hrun & Hf1 & Hm1 & Hpath1 & Hlink1);
    [done | done | apply Hb; by left | lia |].
  pose proof (parent_frame_same_children _ _ _ Hf1) as Hs1.
  destruct (IH h1 m1) as (h' & m' & Hrun' & Hf' & Hm' & Hpath' & Hlink').
  { by eapply children_ordered_same. }
  { by eapply parents_below_frame. }
  { intros a Ha. rewrite (proj1 Hs1). apply Hb. by right. }
  { by rewrite (proj1 Hs1). }
  exists h', m'. split; [by simpl; rewrite Hrun|]. split.
  { eapply parent_frame_trans; [|done].
    apply (parent_frame_weaken 0 r); [lia | done]. }
  split; [by auto|]. split.
  - intros root l n tn Hroot Hpth Hn Hmatch a ta Ha Hta.
    apply elem_of_cons in Hroot as [->|Hroot].
    + apply Hm'. eapply (Hpath1 l n tn); eauto.
    + destruct (proj2 Hf1 _ _ Hn) as (tn' & Hn' & En & _).
      destruct (proj2 Hf1 _ _ Hta) as (ta' & Hta' & Ea & _).
      replace (id ta) with (id ta') by by rewrite Ea.
      eapply (Hpath' root l n tn');
        [done | by eapply path_same_children | done | | done | done].
      rewrite <- Hmatch. apply content_matches_payload. by rewrite En.
  - intros root n Hroot Hdesc Hne.
    apply elem_of_cons in Hroot as [->|Hroot].
    + apply (linked_frame 0 h h1 h' n); [done | by apply Hlink1 | done].
    + destruct (Hlink' root n) as (t' & p & ? & ? & He); [done | | done |].
      { by apply (descendant_same_children h h1). }
      exists t', p. split; [done|]. split; [done|].
      by apply (edge_same_children h h1).
Qed.

(** C3. After a search with a non-blank term, for every node of the
    forest whose content holds the term (both in lower case), the ids of
    all the nodes on the path from its top-level root down to it are in
    the match set. *)
Theorem search_expands_ancestors h traces term fuel :
  children_ordered h → parents_below h →
  (∀ a, a ∈ traces → a < length h) →
  2 * length h ≤ fuel →
  trim term ≠ [] →
  ∃ h' matches,
    handleSearch toLowerCase fuel term h traces = Some (h', matches) ∧
    ∀ root l n tn,
      root ∈ traces → path h root l n → h !! n = Some tn →
      contains (toLowerCase (content tn)) (toLowerCase term) →
      ∀ a ta, a ∈ l → h !! a = Some ta → id ta ∈ matches.
Proof.
  intros Ho Hp Hb Hfuel Hterm.
  destruct (forEach_findMatches_spec term fuel traces h [])
    as (h' & m' & Hrun & _ & _ & Hpath & _); [done..|].
  exists h', m'. split.
  { unfold handleSearch. by rewrite bool_decide_eq_false_2. }
  intros root l n tn Hroot Hpth Hn Hc a ta Ha Hta.
  eapply (Hpath root l n tn); [done.. | | done | done].
  unfold content_matches. by apply includes_spec.
Qed.

(** C9. A search, whatever the term, ends and returns the same objects:
    every field but [parent] is as before, in particular [content] and
    [children]; a [parent] link is either left as it was or set to an
    object that has the node among its children, and after a non-blank
    search every node below a root has such a link.  A blank term changes
    nothing and clears the match set. *)
Theorem search_only_sets_parent_links h traces term fuel :
  children_ordered h → parents_below h →
  (∀ a, a ∈ traces → a < length h) →
  2 * length h ≤ fuel →
  ∃ h' matches,
    handleSearch toLowerCase fuel term h traces = Some (h', matches) ∧
    length h' = length h ∧
    (∀ x t, h !! x = Some t →
       ∃ t', h' !! x = Some t' ∧
             t' = set_parent (parent t') t ∧
             content t' = content t ∧ children t' = children t ∧
             (parent t' = parent t ∨
              ∃ p, parent t' = Some p ∧ edge h p x)) ∧
    (trim term ≠ [] →
       ∀ root n, root ∈ traces → descendant h root n → n ≠ root →
                 linked h h' n) ∧
    (trim term = [] → h' = h ∧ matches = []).
Proof.
  intros Ho Hp Hb Hfuel. unfold handleSearch.
  case_bool_decide as Hterm.
  { exists h, []. split; [done|]. split; [done|]. split; [|done].
    intros x t Ht. exists t. split; [done|].
    split; [by destruct t|]. by auto. }
  destruct (forEach_findMatches_spec term fuel traces h [])
    as (h' & m' & Hrun & Hf & _ & _ & Hlink); [done..|].
  exists h', m'. split; [done|]. split; [apply Hf|]. split; [|done].
  intros x t Ht. destruct (proj2 Hf _ _ Ht) as (t' & Ht' & E & Hor).
  exists t'. split; [done|]. split; [done|].
  split; [by rewrite E|]. split; [by rewrite E|].
  destruct Hor as [?|(_ & p & ? & ?)]; eauto.
Qed.

(** The conditions on the store are kept by a search, so they hold for
    every later search of the session. *)
Lemma search_keeps_conditions h traces term fuel h' matches :
  children_ordered h → parents_below h →
  (∀ a, a ∈ traces → a < length h) →
  2 * length h ≤ fuel →
  handleSearch toLowerCase fuel term h traces = Some (h', matches) →
  children_ordered h' ∧ parents_below h' ∧
  (∀ a, a ∈ traces → a < length h').
Proof.
  intros Ho Hp Hb Hfuel. unfold handleSearch.
  case_bool_decide as Hterm; [by intros; simplify_eq|].
  destruct (forEach_findMatches_spec term fuel traces h [])
    as (h2 & m2 & Hrun & Hf & _); [done..|].
  rewrite Hrun. intros; simplify_eq.
  pose proof (parent_frame_same_children _ _ _ Hf) as Hs.
  split; [by eapply children_ordered_same|].
  split; [by eapply parents_below_frame|].
  intros a Ha. rewrite (proj1 Hs). by apply Hb.
Qed.

End SearchProps.

(** The forest returned by [parseTraceFile] meets the conditions of the
    search: it has no [parent] link at all. *)
Lemma parseTraceFile_forest fuel text h roots :
  parseTraceFile fuel text = Some (h, roots) →
  children_ordered h ∧ parents_below h ∧ (∀ a, a ∈ roots → a < length h) ∧
  (∀ x t, h !! x = Some t → parent t = None).
Proof.
  intros Hrun.
  destruct (parseTraceFile_spec text) as (h0 & Hrun0 & Hso & _).
  assert (h0 = h ∧ allTraces (parseSections text) = roots) as [-> <-].
  { specialize (Hrun0 (S (fuel + length h0)) ltac:(lia)).
    rewrite (parseTraceFile_fuel_mono fuel (S (fuel + length h0)) _ _
               ltac:(lia) Hrun) in Hrun0. by simplify_eq. }
  pose proof (parseSections_Inv text) as HI. simpl in HI.
  destruct HI as [Hc _ Hrb _ _ _ Hu _ _].
  pose proof (stackIds_only_same_children _ _ Hso) as Hs.
  assert (∀ x t, h !! x = Some t → parent t = None) as Hnone.
  { intros x t Ht.
    destruct (same_children_lookup _ _ _ _ Hs Ht) as (t0 & Ht0 & _).
    destruct (proj2 Hso _ _ Ht0) as (t' & ? & E). simplify_eq.
    rewrite E. simpl. by apply (Hu x). }
  split; [by eapply children_ordered_same|]. split.
  { intros r t p Ht Hpar. by rewrite (Hnone _ _ Ht) in Hpar. }
  split; [|done]. intros a Ha. rewrite (proj1 Hs). by apply Hrb.
Qed.

Lemma example1_heap_parsed :
  parseTraceFile 3 example1 = Some (example1_heap, [0]).
Proof. vm_compute. reflexivity. Qed.

Lemma example1_heap_path : path example1_heap 0 [0; 1] 1.
Proof.
  eapply path_step; [vm_compute; reflexivity | by left | constructor].
Qed.

Lemma search_expands_ancestors_witness :
  ∃ h' m,
    handleSearch ascii_lower 4 (str "RETURN") example1_heap [0]
      = Some (h', m) ∧
    trace_id 0 ∈ m ∧ trace_id 1 ∈ m.
Proof.
  destruct (parseTraceFile_forest _ _ _ _ example1_heap_parsed)
    as (Ho & Hp & Hb & _).
  destruct (search_expands_ancestors ascii_lower example1_heap [0]
              (str "RETURN") 4 Ho Hp Hb)
    as (h' & m & Hrun & Hanc).
  { vm_compute. lia. }
  { by vm_compute. }
  exists h', m. split; [done|].
  assert (∃ t1, example1_heap !! 1 = Some t1 ∧
                contains (ascii_lower (content t1))
                         (ascii_lower (str "RETURN"))) as (t1 & Ht1 & Hc).
  { eexists. split; [vm_compute; reflexivity|].
    apply includes_spec. vm_compute. reflexivity. }
  split.
  - destruct (example1_heap !! 0) as [t0|] eqn:Ht0; [|by vm_compute in Ht0].
    replace (trace_id 0) with (id t0) by (vm_compute in Ht0; by simplify_eq).
    apply (Hanc 0 [0; 1] 1 t1 ltac:(by left) example1_heap_path Ht1 Hc
             0 t0 ltac:(by left) Ht0).
  - replace (trace_id 1) with (id t1) by (vm_compute in Ht1; by simplify_eq).
    apply (Hanc 0 [0; 1] 1 t1 ltac:(by left) example1_heap_path Ht1 Hc
             1 t1 ltac:(by right; left) Ht1).
Defined.

Lemma search_only_sets_parent_links_witness :
  ∃ h' m,
    handleSearch ascii_lower 4 (str "b(") example1_heap [0] = Some (h', m) ∧
    length h' = 2 ∧
    children <$> h' !! 0 = Some [1] ∧
    linked example1_heap h' 1.
Proof.
  destruct (parseTraceFile_forest _ _ _ _ example1_heap_parsed)
    as (Ho & Hp & Hb & _).
  destruct (search_only_sets_parent_links ascii_lower example1_heap [0]
              (str "b(") 4 Ho Hp Hb)
    as (h' & m & Hrun & Hlen & Hsame & Hlink & _).
  { vm_compute. lia. }
  exists h', m. split; [done|]. split; [by rewrite Hlen|]. split.
  - destruct (example1_heap !! 0) as [t0|] eqn:Ht0; [|by vm_compute in Ht0].
    destruct (Hsame 0 t0 Ht0) as (t0' & -> & _ & _ & Hch & _).
    simpl. rewrite Hch. vm_compute in Ht0. by simplify_eq.
  - apply (Hlink ltac:(by vm_compute) 0 1); [by left | | done].
    destruct (example1_heap !! 0) as [t0|] eqn:Ht0; [|by vm_compute in Ht0].
    eapply desc_step; [exact Ht0 | | constructor].
    vm_compute in Ht0. simplify_eq. by left.
Defined.

(** * Further properties of the parser *)

(** ** Trimming *)

Lemma drop_while_head p s c r : drop_while p s = c :: r → p c = false.
Proof.
  induction s as [|a s IH]; simpl; [done|].
  destruct (p a) eqn:Hp; [done|]. by intros; simplify_eq.
Qed.

Lemma drop_while_id p s :
  (∀ c r, s = c :: r → p c = false) → drop_while p s = s.
Proof.
  destruct s as [|a s]; simpl; [done|]. intros H.
  by rewrite (H a s eq_refl).
Qed.

Lemma drop_while_suffix p s : drop_while p s `suffix_of` s.
Proof.
  induction s as [|a s IH]; simpl; [done|].
  destruct (p a); [by apply suffix_cons_r | done].
Qed.

Lemma trim_prefix_of_trimStart s : trim s `prefix_of` drop_while is_space s.
Proof.
  unfold trim.
  pose proof (drop_while_suffix is_space
                (reverse (drop_while is_space s))) as H.
  apply suffix_prefix_reverse in H. by rewrite reverse_involutive in H.
Qed.

Lemma trim_head s c r : trim s = c :: r → is_space c = false.
Proof.
  intros H. destruct (trim_prefix_of_trimStart s) as [k Hk].
  rewrite H in Hk. by eapply drop_while_head.
Qed.

Lemma trim_last s c : last (trim s) = Some c → is_space c = false.
Proof.
  unfold trim. rewrite last_reverse. intros H.
  destruct (drop_while is_space (reverse (drop_while is_space s)))
    as [|a k] eqn:E; simplify_eq/=.
  by eapply drop_while_head.
Qed.

Lemma trim_idemp s : trim (trim s) = trim s.
Proof.
  unfold trim at 1.
  rewrite (drop_while_id is_space (trim s))
    by (intros c r; apply trim_head).
  rewrite drop_while_id; [apply reverse_involutive|].
  intros c r Hr. apply (trim_last s).
  by rewrite <- head_reverse, Hr.
Qed.

(** What follows the indentation match starts with neither white space
    nor a glyph. *)
Lemma indent_scan_rest b s c r :
  drop (length (indent_scan b s)) s = c :: r →
  is_space c = false ∧ is_glyph c = false.
Proof.
  revert b. induction s as [|a s IH]; intros b; simpl; [done|].
  destruct (is_space a) eqn:Hs; simpl; [by apply IH|].
  destruct (is_glyph a) eqn:Hg; simpl; [by apply IH|].
  destruct (b && is_dash a); simpl; [by apply IH|].
  by intros; simplify_eq.
Qed.

(** X1. The content of a node is trimmed and not empty, and its first
    character is neither white space nor one of the three indentation
    glyphs: the whole indentation was consumed by the prefix. *)
Theorem content_is_stripped line n t :
  classifyLine line n = Some t →
  trim (content t) = content t ∧
  ∃ c r, content t = c :: r ∧ is_space c = false ∧ is_glyph c = false.
Proof.
  intros H. apply classifyLine_Some in H as (_ & Hc & Hne & _).
  split; [by rewrite Hc, trim_idemp|].
  destruct (content t) as [|c r] eqn:E; [done|]. exists c, r.
  split; [done|]. split; [by eapply trim_head|].
  set (rest := drop (length (indentMatch line)) line) in *.
  destruct rest as [|a k] eqn:Hrest; [by vm_compute in Hc|].
  destruct (indent_scan_rest false line a k Hrest) as [Hsa Hga].
  pose proof (trim_prefix_of_trimStart (a :: k)) as Hp.
  rewrite <- Hc in Hp. simpl in Hp. rewrite Hsa in Hp.
  by apply prefix_cons_inv_1 in Hp as ->.
Qed.

Lemma content_is_stripped_witness :
  ∃ t, classifyLine three_glyph_line 0 = Some t ∧ trim (content t) = content t.
Proof.
  eexists. split; [vm_compute; reflexivity|].
  eapply (content_is_stripped three_glyph_line 0). vm_compute. reflexivity.
Defined.

(** X2. A line made of indentation only (white space, glyphs, dashes after
    glyphs) produces no node, however many glyphs it holds. *)
Theorem indent_only_line_skipped line n :
  indent_prefix line → classifyLine line n = None.
Proof.
  intros H. unfold classifyLine.
  case_bool_decide; [done|].
  unfold indentMatch. rewrite (indent_prefix_accepted _ H).
  by rewrite drop_all.
Qed.

Lemma indent_only_line_skipped_witness :
  classifyLine ([glyph_bar] ++ str "   " ++ [glyph_corner; glyph_dash]) 3
  = None.
Proof.
  apply indent_only_line_skipped.
  apply (indent_group ([glyph_bar] ++ str "   ") glyph_corner [glyph_dash] []);
    [|done|by right|done].
  apply (indent_group [] glyph_bar [] (str "   ")); [|done|by left|].
  - by apply indent_ws.
  - by repeat constructor.
Defined.

(** ** The call pattern *)

Lemma take_while_drop p s :
  s = take_while p s ++ drop (length (take_while p s)) s.
Proof.
  induction s as [|a s IH]; simpl; [done|].
  destruct (p a); simpl; [by f_equal | done].
Qed.

Lemma take_while_Forall p s : Forall (λ c, p c = true) (take_while p s).
Proof.
  induction s as [|a s IH]; simpl; [constructor|].
  destruct (p a) eqn:Hp; by constructor.
Qed.

Lemma closes_spec s :
  closes s = true →
  ∃ args rest,
    s = args ++ 41%N :: rest ∧
    Forall (λ c, c ≠ 41%N ∧ is_line_terminator c = false) args.
Proof.
  induction s as [|a s IH]; simpl; [done|].
  destruct (a =? 41)%N eqn:Ha.
  { apply N.eqb_eq in Ha as ->. intros _. by exists [], s. }
  destruct (is_line_terminator a) eqn:Hl; [done|].
  intros (args & rest & -> & Hargs)%IH.
  exists (a :: args), rest. split; [done|].
  constructor; [|done]. split; [by apply N.eqb_neq | done].
Qed.

Lemma open_paren_inv {A} (s3 : jsstring) (k : jsstring → option A) v :
  match s3 with
  | 40%N :: s4 => k s4
  | _ => None
  end = Some v →
  ∃ s4, s3 = 40%N :: s4 ∧ k s4 = Some v.
Proof.
  destruct s3 as [|a s4]; [done|].
  destruct a as [|p]; [done|].
  do 6 (destruct p as [p|p|]; try done). eauto.
Qed.

Lemma match_call_at_spec s c f :
  match_call_at s = Some (c, f) →
  c ≠ [] ∧ f ≠ [] ∧
  Forall (λ x, is_ident x = true) c ∧ Forall (λ x, is_ident x = true) f ∧
  ∃ args rest,
    s = c ++ str "::" ++ f ++ str "(" ++ args ++ str ")" ++ rest ∧
    Forall (λ x, x ≠ 41%N ∧ is_line_terminator x = false) args.
Proof.
  unfold match_call_at.
  set (c0 := take_while is_ident s).
  set (s1 := drop (length c0) s).
  set (f0 := take_while is_ident (drop 2 s1)).
  set (s3 := drop (length f0) (drop 2 s1)).
  case_bool_decide as Hc; [done|].
  destruct (starts_with (str "::") s1) eqn:Hcolon; [|done].
  cbn [negb]. case_bool_decide as Hf; [done|].
  intros (s4 & Hs3 & Hk)%open_paren_inv.
  destruct (closes s4) eqn:Hcl; [|done]. simplify_eq.
  split; [done|]. split; [done|].
  split; [apply take_while_Forall|]. split; [apply take_while_Forall|].
  apply closes_spec in Hcl as (args & rest & -> & Hargs).
  exists args, rest. split; [|done].
  apply starts_with_spec in Hcolon as [r1 Hr1].
  rewrite (take_while_drop is_ident s) at 1. fold s1. f_equal.
  assert (drop 2 s1 = r1) as Hd by by rewrite Hr1.
  rewrite Hr1 at 1. f_equal.
  by rewrite <- Hd, (take_while_drop is_ident (drop 2 s1)) at 1; rewrite Hs3.
Qed.

Lemma functionMatch_unfold s :
  functionMatch s =
  match match_call_at s with
  | Some r => Some r
  | None => match s with
            | [] => None
            | _ :: s' => functionMatch s'
            end
  end.
Proof. by destruct s. Qed.

Lemma functionMatch_spec s c f :
  functionMatch s = Some (c, f) →
  c ≠ [] ∧ f ≠ [] ∧
  Forall (λ x, is_ident x = true) c ∧ Forall (λ x, is_ident x = true) f ∧
  ∃ args,
    Forall (λ x, x ≠ 41%N ∧ is_line_terminator x = false) args ∧
    contains s (c ++ str "::" ++ f ++ str "(" ++ args ++ str ")").
Proof.
  induction s as [|a s IH]; rewrite functionMatch_unfold.
  - intros H. by vm_compute in H.
  - destruct (match_call_at (a :: s)) as [[c' f']|] eqn:E.
    + intros; simplify_eq.
      apply match_call_at_spec in E as (? & ? & ? & ? & args & rest & E & ?).
      repeat (split; [done|]). exists args. split; [done|].
      exists [], rest. by rewrite E, <- !app_assoc.
    + intros (? & ? & ? & ? & args & ? & (l & r & ->))%IH.
      repeat (split; [done|]). exists args. split; [done|].
      by exists (a :: l), r.
Qed.

Lemma classifyLine_names line n t :
  classifyLine line n = Some t →
  contractName t = fst <$> functionMatch (content t) ∧
  functionName t = snd <$> functionMatch (content t).
Proof.
  unfold classifyLine. intros H.
  repeat case_bool_decide; by simplify_eq/=.
Qed.

(** X3. The two names of a node are set together or not at all.  When set
    they are non-empty runs of name characters, and the content holds the
    text "contract::function(args)" for some argument text without a line
    terminator or a closing parenthesis; so a content without a closing
    parenthesis carries no names. *)
Theorem names_come_from_content line n t :
  classifyLine line n = Some t →
  (contractName t = None ↔ functionName t = None) ∧
  ∀ c f,
    contractName t = Some c → functionName t = Some f →
    c ≠ [] ∧ f ≠ [] ∧
    Forall (λ x, is_ident x = true) c ∧ Forall (λ x, is_ident x = true) f ∧
    ∃ args,
      Forall (λ x, x ≠ 41%N ∧ is_line_terminator x = false) args ∧
      contains (content t)
        (c ++ str "::" ++ f ++ str "(" ++ args ++ str ")").
Proof.
  intros H. apply classifyLine_names in H as [Hc Hf].
  rewrite Hc, Hf.
  destruct (functionMatch (content t)) as [[c0 f0]|] eqn:E; simpl.
  - split; [done|]. intros c f ? ?; simplify_eq.
    by apply functionMatch_spec.
  - split; [done|]. by intros.
Qed.

Lemma names_come_from_content_witness :
  ∃ t, classifyLine (str "  [123] Vault::deposit(1, (2, 3)) x") 0 = Some t ∧
       contractName t = Some (str "Vault") ∧
       contains (content t) (str "Vault::deposit(").
Proof.
  destruct (classifyLine (str "  [123] Vault::deposit(1, (2, 3)) x") 0)
    as [t|] eqn:Ht; [|by vm_compute in Ht].
  exists t. split; [done|].
  assert (contractName t = Some (str "Vault") ∧
          functionName t = Some (str "deposit")) as [Hc Hf].
  { vm_compute in Ht. by simplify_eq. }
  split; [done|].
  destruct (proj2 (names_come_from_content _ _ _ Ht) _ _ Hc Hf)
    as (_ & _ & _ & _ & args & _ & (l & r & E)).
  exists l, (args ++ str ")" ++ r). rewrite E.
  by rewrite <- !app_assoc.
Defined.

(** ** Sections *)

Lemma split_sections_marker_free k : ∀ s cur piece,
  length s < k →
  (∀ l r, cur ++ s = l ++ section_marker ++ r → length cur ≤ length l) →
  piece ∈ split_sections k s cur →
  ¬ contains piece section_marker.
Proof.
  assert (0 < length section_marker) as Hm0 by (vm_compute; lia).
  assert (∀ cur s,
            (∀ l r, cur ++ s = l ++ section_marker ++ r →
                    length cur ≤ length l) →
            ¬ contains cur section_marker) as Hcur.
  { intros cur s Hfirst (l & r & ->).
    specialize (Hfirst l (r ++ s)). rewrite <- !app_assoc in Hfirst.
    specialize (Hfirst eq_refl). rewrite !length_app in Hfirst. lia. }
  induction k as [|k IH]; intros s cur piece Hk Hfirst Hin; [lia|].
  rewrite split_sections_S in Hin.
  destruct (starts_with section_marker s) eqn:Hm.
  - apply elem_of_cons in Hin as [->|Hin]; [by eapply Hcur|].
    eapply IH; [| |exact Hin].
    + pose proof (length_drop_while is_space
                    (drop (length section_marker) s)) as Hd.
      rewrite length_drop in Hd.
      apply starts_with_marker_length in Hm. lia.
    + intros l r _. cbn [length]. lia.
  - destruct s as [|c s].
    + apply list_elem_of_singleton in Hin as ->. by eapply Hcur.
    + eapply IH; [| |exact Hin]; [cbn [length] in Hk; lia|].
      intros l r Hlr. rewrite <- app_assoc in Hlr.
      pose proof (Hfirst l r Hlr) as Hle.
      destruct (decide (length cur = length l)) as [Heq|];
        [|rewrite length_app; cbn [length]; lia].
      apply app_inj_1 in Hlr as [_ Hs]; [|done].
      rewrite (proj2 (starts_with_spec section_marker (c :: s))) in Hm;
        [done|]. exists r. exact Hs.
Qed.

(** X4. No section handed to the tree builder is empty, and none holds
    the section marker: the marker text itself is never parsed as a
    line. *)
Theorem sections_are_marker_free text section :
  section ∈ traceSections text →
  section ≠ [] ∧ ¬ contains section section_marker.
Proof.
  unfold traceSections. intros [Hne Hin]%list_elem_of_filter.
  split; [done|].
  eapply (split_sections_marker_free (S (length text)) text []);
    [lia | | exact Hin].
  intros l r _. cbn [length]. lia.
Qed.

Lemma sections_are_marker_free_witness :
  str "A::f()" ++ nl ∈ traceSections example2 ∧
  ¬ contains (str "A::f()" ++ nl) section_marker.
Proof.
  assert (str "A::f()" ++ nl ∈ traceSections example2) as Hin.
  { vm_compute. by left. }
  split; [done|]. by apply (sections_are_marker_free example2).
Defined.

(** ** The shape of the forest *)

Lemma Forest_empty : Forest [] [] [].
Proof.
  split; intros;
    match goal with
    | H : edge [] _ _ |- _ =>
        destruct H as (? & H & _); by rewrite lookup_nil in H
    | H : _ ∈ [] |- _ => by apply elem_of_nil in H
    | H : [] !! _ = Some _ |- _ => by rewrite lookup_nil in H
    end.
Qed.

Lemma edge_snoc h t x y :
  children t = [] → edge (h ++ [t]) x y → edge h x y.
Proof.
  intros Hch (tx & [[_ Hx]|[_ ->]]%heap_lookup_snoc & Hy).
  - by exists tx.
  - rewrite Hch in Hy. by apply elem_of_nil in Hy.
Qed.

Lemma edge_push_child h t p x y :
  children t = [] → p < length h →
  edge (push_child (h ++ [t]) p (length h)) x y →
  edge h x y ∨ (x = p ∧ y = length h).
Proof.
  intros Hch Hp (tx & Hx & Hy).
  apply lookup_push_child in Hx
    as [(_ & _ & Hx) | [(-> & tp & Hx & ->) | (_ & _ & ->)]]; [| | |done].
  - left. by exists tx.
  - simpl in Hy. apply elem_of_app in Hy as [Hy| ->%list_elem_of_singleton].
    + left. by exists tp.
    + by right.
  - rewrite Hch in Hy. by apply elem_of_nil in Hy.
Qed.

Lemma depth_push_child h t p x tx :
  p < length h →
  push_child (h ++ [t]) p (length h) !! x = Some tx →
  (x < length h ∧ ∃ tx0, h !! x = Some tx0 ∧ depth tx = depth tx0) ∨
  (x = length h ∧ tx = t).
Proof.
  intros Hp Hx. apply lookup_push_child in Hx
    as [(_ & ? & Hx) | [(-> & tp & Hx & ->) | (_ & ? & ->)]]; [| | |done].
  - left. eauto.
  - left. eauto.
  - by right.
Qed.

Lemma Forest_alloc_root h R K n t :
  Inv h R K n → Forest h R K →
  children t = [] → depth t = 0 →
  Forest (h ++ [t]) (R ++ [length h]) [length h].
Proof.
  intros [Hc _ Hrb _ _ _ _ _ _] [Hrd Hcd Hcs Hup Hss Hse Hnc] Hch Hd.
  assert (∀ x y, edge h x y → x < y < length h) as Hedge.
  { intros x y (tx & Hx & Hy). by eapply Hc. }
  split.
  - intros a [Ha| ->%list_elem_of_singleton]%elem_of_app.
    + destruct (Hrd a Ha) as (ta & Hta & ?). exists ta.
      split; [by apply lookup_app_l_Some | done].
    + exists t. split; [apply list_lookup_middle; done | done].
  - intros p c tc He%edge_snoc Htc; [|done].
    apply heap_lookup_snoc in Htc as [[_ Htc]|[-> _]].
    + by eapply Hcd.
    + apply Hedge in He. lia.
  - intros p tp i j a b [[_ Hp]|[_ ->]]%heap_lookup_snoc; [by eapply Hcs|].
    rewrite Hch. by rewrite lookup_nil.
  - intros p1 p2 c He1%edge_snoc He2%edge_snoc; by eauto.
  - intros i j a b Ha Hb Hij.
    apply list_lookup_singleton_Some in Ha as [-> _].
    apply list_lookup_singleton_Some in Hb as [-> _]. lia.
  - intros p c s He%edge_snoc ->%list_elem_of_singleton; [|done].
    apply Hedge in He. lia.
  - intros p c x y He1%edge_snoc He2%edge_snoc; by eauto.
Qed.

Lemma Forest_alloc_drop h R K n t :
  Inv h R K n → Forest h R K → children t = [] →
  Forest (h ++ [t]) R K.
Proof.
  intros [Hc _ Hrb _ _ _ _ _ _] [Hrd Hcd Hcs Hup Hss Hse Hnc] Hch.
  assert (∀ x y, edge h x y → x < y < length h) as Hedge.
  { intros x y (tx & Hx & Hy). by eapply Hc. }
  split.
  - intros a Ha. destruct (Hrd a Ha) as (ta & Hta & ?). exists ta.
    split; [by apply lookup_app_l_Some | done].
  - intros p c tc He%edge_snoc Htc; [|done].
    apply heap_lookup_snoc in Htc as [[_ Htc]|[-> _]].
    + by eapply Hcd.
    + apply Hedge in He. lia.
  - intros p tp i j a b [[_ Hp]|[_ ->]]%heap_lookup_snoc; [by eapply Hcs|].
    rewrite Hch. by rewrite lookup_nil.
  - intros p1 p2 c He1%edge_snoc He2%edge_snoc; by eauto.
  - done.
  - intros p c s He%edge_snoc Hs; by eauto.
  - intros p c x y He1%edge_snoc He2%edge_snoc; by eauto.
Qed.

Lemma Forest_alloc_child h R K K' n t p :
  Inv h R K n → Forest h R K →
  children t = [] → depth t ≠ 0 →
  K' `prefix_of` K → last K' = Some p →
  Forest (push_child (h ++ [t]) p (length h)) R (K' ++ [length h]).
Proof.
  intros [Hc _ Hrb Hsb _ _ _ _ _] [Hrd Hcd Hcs Hup Hss Hse Hnc] Hch Hd
    [K2 ->] Hlast.
  assert (∀ x y, edge h x y → x < y < length h) as Hedge.
  { intros x y (tx & Hx & Hy). by eapply Hc. }
  assert (p ∈ K') as HpK' by by apply last_Some_elem_of.
  assert (∀ s, s ∈ K' → s < length h) as HK'b.
  { intros s Hs. apply Hsb, elem_of_app. by left. }
  assert (p < length h) as Hp by by apply HK'b.
  assert (∀ s, s ∈ K' → s ≤ p) as Hmax.
  { intros s Hs. apply last_Some in Hlast as [K0 ->].
    apply elem_of_app in Hs as [Hs| ->%list_elem_of_singleton]; [|lia].
    apply list_elem_of_lookup_1 in Hs as [i Hi].
    assert (s < p); [|lia].
    apply (Hss i (length K0) s p); [| |by eapply lookup_lt_Some].
    - rewrite <- app_assoc. by apply lookup_app_l_Some.
    - rewrite <- app_assoc. by apply list_lookup_middle. }
  split.
  - intros a Ha. destruct (Hrd a Ha) as (ta & Hta & Hda).
    pose proof (lookup_lt_Some _ _ _ Hta) as Hlt.
    destruct (lookup_lt_is_Some_2 (push_child (h ++ [t]) p (length h)) a)
      as [ta' Hta']; [rewrite length_push_child, length_app; simpl; lia|].
    exists ta'. split; [done|].
    apply depth_push_child in Hta' as [(_ & t0 & ? & ->)|[? _]];
      [by simplify_eq | lia | done].
  - intros q c tc He Htc.
    apply depth_push_child in Htc as [(Hlt & t0 & Ht0 & ->)|[-> ->]];
      [|done|done].
    apply edge_push_child in He; [|done|done].
    destruct He as [He|[_ ->]]; [by eapply Hcd | lia].
  - intros q tq i j a b Hq Ha Hb Hij.
    apply lookup_push_child in Hq
      as [(_ & _ & Hq) | [(-> & tp & Hq & ->) | (_ & _ & ->)]]; [| | |done].
    + by eapply Hcs.
    + simpl in Ha, Hb.
      assert (i < length (children tp)) as Hi.
      { apply lookup_lt_Some in Hb. rewrite length_app in Hb.
        simpl in Hb. lia. }
      rewrite lookup_app_l in Ha by done.
      apply lookup_app_Some in Hb as [Hb|[_ Hb]]; [by eapply Hcs|].
      apply list_lookup_singleton_Some in Hb as [_ <-].
      apply (Hc p tp a Hq). by eapply list_elem_of_lookup_2.
    + rewrite Hch in Ha. by rewrite lookup_nil in Ha.
  - intros p1 p2 c He1 He2.
    apply edge_push_child in He1; [|done|done].
    apply edge_push_child in He2; [|done|done].
    destruct He1 as [He1|[-> ->]]; destruct He2 as [He2|[-> ?]];
      [by eauto | | | done].
    + apply Hedge in He1. lia.
    + apply Hedge in He2. lia.
  - intros i j a b Ha Hb Hij.
    assert (i < length K') as Hi.
    { apply lookup_lt_Some in Hb. rewrite length_app in Hb.
      simpl in Hb. lia. }
    rewrite lookup_app_l in Ha by done.
    apply lookup_app_Some in Hb as [Hb|[_ Hb]].
    + apply (Hss i j); [by apply lookup_app_l_Some.. | done].
    + apply list_lookup_singleton_Some in Hb as [_ <-].
      apply HK'b. by eapply list_elem_of_lookup_2.
  - intros q c s He Hs.
    apply elem_of_app in Hs as [Hs| ->%list_elem_of_singleton].
    + apply edge_push_child in He; [|done|done].
      destruct He as [He|[-> ->]].
      * apply (Hse q c s He). apply elem_of_app. by left.
      * left. by apply Hmax.
    + right. apply edge_push_child in He; [|done|done].
      destruct He as [He|[-> ->]]; [|lia].
      apply Hedge in He. lia.
  - intros q c x y He1 He2 Hqx Hxc.
    apply edge_push_child in He1; [|done|done].
    apply edge_push_child in He2; [|done|done].
    destruct He1 as [He1|[-> ->]]; destruct He2 as [He2|[-> ->]].
    + by eapply Hnc.
    + destruct (Hse q c p He1) as [?|?]; [|lia..].
      apply elem_of_app. by left.
    + apply Hedge in He2. lia.
    + lia.
Qed.

Lemma attach_Forest prev st t :
  Inv (heap st) (prev ++ rootTraces st) (currentStack st) (lineId st) →
  Forest (heap st) (prev ++ rootTraces st) (currentStack st) →
  children t = [] →
  Forest (heap (attach st t)) (prev ++ rootTraces (attach st t))
         (currentStack (attach st t)).
Proof.
  intros HI HF Hch. unfold attach.
  case_bool_decide as Hd; simpl.
  { rewrite app_assoc. by eapply Forest_alloc_root. }
  case_bool_decide as Hle; simpl.
  { destruct (attach_slice_defined (currentStack st) (depth t))
      as (p & Hp & HpK); [done..|]. rewrite Hp. simpl.
    eapply Forest_alloc_child; [done.. | apply prefix_take |].
    rewrite last_lookup, length_take_le by done.
    by replace (pred (depth t)) with (depth t - 1) by lia. }
  case_bool_decide as Hgt; simpl.
  { destruct (last (currentStack st)) as [p|] eqn:Hlast; simpl.
    - by eapply Forest_alloc_child.
    - by eapply Forest_alloc_drop. }
  by eapply Forest_alloc_drop.
Qed.

Lemma parseLines_Forest prev lines : ∀ st,
  Inv (heap st) (prev ++ rootTraces st) (currentStack st) (lineId st) →
  Forest (heap st) (prev ++ rootTraces st) (currentStack st) →
  let st' := foldl parseLine st lines in
  Forest (heap st') (prev ++ rootTraces st') (currentStack st').
Proof.
  induction lines as [|line lines IH]; intros st HI HF; simpl; [done|].
  apply IH; [by apply parseLine_Inv|].
  unfold parseLine.
  destruct (classifyLine line (lineId st)) as [t|] eqn:Hc; [|done].
  apply attach_Forest; [done..|].
  by apply classifyLine_Some in Hc as (_ & _ & _ & _ & ? & _).
Qed.

Lemma Forest_next_section h R K : Forest h R K → Forest h R [].
Proof.
  intros [Hrd Hcd Hcs Hup Hss Hse Hnc]. split; try done; intros;
    match goal with
    | H : _ ∈ [] |- _ => by apply elem_of_nil in H
    | H : [] !! _ = Some _ |- _ => by rewrite lookup_nil in H
    end.
Qed.

Lemma parseSections_Forest text :
  let fs := parseSections text in
  Forest (fheap fs) (allTraces fs) [].
Proof.
  unfold parseSections.
  assert (∀ l fs,
            Inv (fheap fs) (allTraces fs) [] (globalLineId fs) →
            Forest (fheap fs) (allTraces fs) [] →
            let fs' := foldl parseSection fs l in
            Forest (fheap fs') (allTraces fs') []) as H.
  { induction l as [|s l IH]; intros fs HI HF; simpl; [done|].
    apply IH; [by apply parseSection_Inv|].
    unfold parseSection, parseTraceLines, parseTraceLines_from. simpl.
    eapply Forest_next_section.
    apply (parseLines_Forest (allTraces fs) (split_lines s)
             (mkPState (fheap fs) [] [] (globalLineId fs)));
      simpl; by rewrite app_nil_r. }
  apply H; [apply Inv_empty | apply Forest_empty].
Qed.

Lemma Forest_stackIds_only h h' R K :
  stackIds_only h h' → Forest h R K → Forest h' R K.
Proof.
  intros Hso [Hrd Hcd Hcs Hup Hss Hse Hnc].
  pose proof (stackIds_only_same_children _ _ Hso) as Hs.
  assert (∀ x y, edge h' x y → edge h x y) as Hedge.
  { intros x y. by apply (edge_same_children h h'). }
  assert (∀ x t', h' !! x = Some t' →
            ∃ t, h !! x = Some t ∧ depth t' = depth t ∧
                 children t' = children t) as Hback.
  { intros x t' Ht'.
    destruct (same_children_lookup _ _ _ _ Hs Ht') as (t & Ht & _).
    destruct (proj2 Hso _ _ Ht) as (t'' & ? & E). simplify_eq.
    exists t. split; [done|]. by rewrite E. }
  split; try done.
  - intros a Ha. destruct (Hrd a Ha) as (t & Ht & Hd).
    destruct (proj2 Hso _ _ Ht) as (t' & Ht' & E).
    exists t'. split; [done|]. by rewrite E.
  - intros p c tc He%Hedge (t & Ht & -> & _)%Hback. by eapply Hcd.
  - intros p t' i j a b (t & Ht & _ & ->)%Hback. by eapply Hcs.
  - intros p1 p2 c He1%Hedge He2%Hedge. by eauto.
  - intros p c s He%Hedge. by eauto.
  - intros p c x y He1%Hedge He2%Hedge. by eauto.
Qed.

(** The forest that [parseTraceFile] returns has the shape above. *)
Lemma parseTraceFile_Forest fuel text h roots :
  parseTraceFile fuel text = Some (h, roots) → Forest h roots [].
Proof.
  intros Hrun.
  destruct (parseTraceFile_spec text) as (h0 & Hrun0 & Hso & _).
  assert (h0 = h ∧ allTraces (parseSections text) = roots) as [-> <-].
  { specialize (Hrun0 (S (fuel + length h0)) ltac:(lia)).
    rewrite (parseTraceFile_fuel_mono fuel (S (fuel + length h0)) _ _
               ltac:(lia) Hrun) in Hrun0. by simplify_eq. }
  eapply Forest_stackIds_only; [done|]. apply parseSections_Forest.
Qed.

(** X5. In every parsed forest the roots are exactly the nodes of depth 0
    that are linked: a root has depth 0, a child never has; a node is the
    child of at most one node and occurs once among its children, which
    are listed in allocation order; so the forest is a forest of trees
    and no root is a child. *)
Theorem parsed_forest_is_a_tree fuel text h roots :
  parseTraceFile fuel text = Some (h, roots) →
  (∀ a, a ∈ roots → ∃ t, h !! a = Some t ∧ depth t = 0) ∧
  (∀ p c tc, edge h p c → h !! c = Some tc → depth tc ≠ 0) ∧
  (∀ p c, edge h p c → c ∉ roots) ∧
  (∀ p1 p2 c, edge h p1 c → edge h p2 c → p1 = p2) ∧
  (∀ p t, h !! p = Some t → StronglySorted lt (children t)).
Proof.
  intros Hrun. destruct (parseTraceFile_Forest _ _ _ _ Hrun)
    as [Hrd Hcd Hcs Hup _ _ _].
  split; [done|]. split; [done|]. split; [|split; [done|]].
  - intros p c He Hc. destruct (Hrd c Hc) as (tc & Htc & Hd).
    by eapply Hcd.
  - intros p t Ht. specialize (Hcs p t).
    induction (children t) as [|a l IH]; constructor.
    + apply IH. intros i j x y ? Hx Hy Hij.
      apply (Hcs (S i) (S j) x y Ht Hx Hy). lia.
    + apply Forall_forall. intros b [j Hb]%list_elem_of_lookup_1.
      apply (Hcs 0 (S j) a b Ht eq_refl Hb). lia.
Qed.

Lemma parsed_forest_is_a_tree_witness :
  ∃ h, parseTraceFile 9 nested_document = Some (h, [0; 3]) ∧
       edge h 1 2 ∧ ∀ p, edge h p 2 → p = 1.
Proof.
  destruct (parseTraceFile 9 nested_document) as [[h roots]|] eqn:E;
    [|by vm_compute in E].
  destruct (parsed_forest_is_a_tree _ _ _ _ E) as (_ & _ & _ & Hup & _).
  assert (roots = [0; 3] ∧ edge h 1 2) as [-> He].
  { vm_compute in E. simplify_eq. split; [done|].
    eexists. split; [done|]. by left. }
  exists h. split; [done|]. split; [done|].
  intros p Hp. by apply (Hup p 1 2).
Defined.

(** ** Flattening the forest *)

Lemma index_sorted_StronglySorted (l : list nat) :
  (∀ i j a b, l !! i = Some a → l !! j = Some b → i < j → a < b) →
  StronglySorted lt l.
Proof.
  induction l as [|a l IH]; intros H; constructor.
  - apply IH. intros i j x y Hx Hy Hij. apply (H (S i) (S j) x y Hx Hy). lia.
  - apply Forall_forall. intros b [j Hb]%list_elem_of_lookup_1.
    apply (H 0 (S j) a b eq_refl Hb). lia.
Qed.

Lemma flatten_push_acc rec h r acc :
  flatten_push rec h r acc = (λ out, acc ++ out) <$> flatten_push rec h r [].
Proof.
  unfold flatten_push. destruct (h !! r) as [t|]; simpl; [|done].
  by destruct (if bool_decide (0 < length (children t))
               then rec (children t) else Some []).
Qed.

Lemma forEach_flatten_acc rec h l : ∀ acc,
  forEach_ref (flatten_push rec h) l acc =
  (λ out, acc ++ out) <$> forEach_ref (flatten_push rec h) l [].
Proof.
  induction l as [|r l IH]; intros acc.
  { simpl. by rewrite app_nil_r. }
  cbn [forEach_ref]. rewrite (flatten_push_acc rec h r acc).
  destruct (flatten_push rec h r []) as [x|]; simpl; [|done].
  rewrite (IH (acc ++ x)), (IH x).
  destruct (forEach_ref (flatten_push rec h) l []) as [out|]; simpl; [|done].
  by rewrite <- app_assoc.
Qed.

Lemma descendant_inv h r t n :
  h !! r = Some t →
  descendant h r n ↔ n = r ∨ ∃ c, c ∈ children t ∧ descendant h c n.
Proof.
  intros Ht. split.
  - inversion 1 as [|? t0 c ? Ht0 Hc Hd]; simplify_eq; eauto.
  - intros [->|(c & Hc & Hd)]; [constructor|]. by eapply desc_step.
Qed.

(** Flattening a list of nodes that come in allocation order, in a store
    of the shape kept by the tree builder: with enough fuel the result is
    in allocation order and holds exactly the nodes below the listed
    ones. *)
Lemma flattenTraces_sorted h :
  children_ordered h →
  (∀ p t, h !! p = Some t → StronglySorted lt (children t)) →
  (∀ p c x y, edge h p c → edge h x y → p < x → x < c → y < c) →
  ∀ k l lo,
    0 < k →
    StronglySorted lt l →
    (∀ r, r ∈ l → lo ≤ r ∧ r < length h ∧ length h < r + k) →
    (∀ b x y, b ∈ l → edge h x y → lo ≤ x → x < b → y < b) →
    ∃ out,
      flattenTraces k h l = Some out ∧
      StronglySorted lt out ∧
      ∀ n, n ∈ out ↔ ∃ r, r ∈ l ∧ descendant h r n.
Proof.
  intros Ho Hcs Hnc. induction k as [|k IH]; intros l lo Hk Hl Hb Hsep; [lia|].
  change (flattenTraces (S k) h l)
    with (forEach_ref (flatten_push (flattenTraces k h) h) l []).
  clear Hk. induction l as [|r l IHl].
  { exists []. split; [done|]. split; [constructor|].
    intros n. split; [by intros ?%elem_of_nil|].
    by intros (r & ?%elem_of_nil & _). }
  destruct (Hb r) as (Hlo & Hr & Hfuel); [by left|].
  destruct (lookup_lt_is_Some_2 h r Hr) as [t Ht].
  apply StronglySorted_cons in Hl as [Hrl Hl].
  (* the children *)
  assert (∃ sub,
            (if bool_decide (0 < length (children t))
             then flattenTraces k h (children t) else Some []) = Some sub ∧
            StronglySorted lt sub ∧
            ∀ n, n ∈ sub ↔ ∃ c, c ∈ children t ∧ descendant h c n)
    as (sub & Hsub & Hsorted & Hmem).
  { case_bool_decide as Hne.
    - apply (IH (children t) (S r)).
      + destruct (children t) as [|c cs] eqn:E; [simpl in Hne; lia|].
        pose proof (Ho r t c Ht) as Hc. rewrite E in Hc.
        specialize (Hc ltac:(by left)). lia.
      + by eapply Hcs.
      + intros c Hc. pose proof (Ho r t c Ht Hc). lia.
      + intros b x y Hbc Hxy Hx Hxb.
        apply (Hnc r b x y); [by exists t | done | lia | done].
    - exists []. split; [done|]. split; [constructor|].
      destruct (children t); [|simpl in Hne; lia].
      intros n. split; [by intros ?%elem_of_nil|].
      by intros (c & ?%elem_of_nil & _). }
  destruct IHl as (out' & Hout' & Hsorted' & Hmem'); [done | |  |].
  { intros r' Hr'. apply Hb. by right. }
  { intros b x y Hbl. apply Hsep. by right. }
  exists (r :: sub ++ out'). split.
  { cbn [forEach_ref].
    assert (flatten_push (flattenTraces k h) h r [] = Some (r :: sub)) as ->.
    { unfold flatten_push. rewrite Ht. simpl. by rewrite Hsub. }
    simpl. by rewrite forEach_flatten_acc, Hout'. }
  assert (∀ n, n ∈ sub → r < n) as Hsub_gt.
  { intros n (c & Hc & Hd)%Hmem. pose proof (Ho r t c Ht Hc).
    apply descendant_ge in Hd; [lia | done]. }
  assert (∀ n m, n ∈ sub → m ∈ out' → n < m) as Hsub_lt.
  { intros n m (c & Hc & Hd)%Hmem (r' & Hr' & Hd')%Hmem'.
    assert (r < r') as Hrr'.
    { rewrite Forall_forall in Hrl. by apply Hrl. }
    assert (n < r'); [|apply descendant_ge in Hd'; [lia | done]].
    pose proof (Ho r t c Ht Hc) as Hrc.
    assert (c < r') as Hcr'.
    { apply (Hsep r' r c); [by right | by exists t | done | done]. }
    clear Hc. induction Hd as [|x tx y n Hx Hy _ IHd]; [done|].
    apply IHd; [pose proof (Ho x tx y Hx Hy); lia|].
    apply (Hsep r' x y); [by right | by exists tx | lia | done]. }
  split.
  - constructor.
    + apply StronglySorted_app. split; [done|]. by split.
    + apply Forall_forall.
      intros n [Hn|(r' & Hr' & Hd')%Hmem']%elem_of_app; [by apply Hsub_gt|].
      rewrite Forall_forall in Hrl. specialize (Hrl r' Hr').
      apply descendant_ge in Hd'; [lia | done].
  - intros n. rewrite elem_of_cons, elem_of_app, Hmem, Hmem'. split.
    + intros [->|[(c & Hc & Hd)|(r' & Hr' & Hd')]].
      * exists r. split; [by left | constructor].
      * exists r. split; [by left | by eapply desc_step].
      * exists r'. split; [by right | done].
    + intros (r0 & [->|Hr0]%elem_of_cons & Hd).
      * apply (descendant_inv h _ t n Ht) in Hd as [->|?]; eauto.
      * right; right. eauto.
Qed.

Lemma parseTraceFile_roots fuel text h roots :
  parseTraceFile fuel text = Some (h, roots) →
  StronglySorted lt roots ∧
  ∀ b x y, b ∈ roots → edge h x y → x < b → y < b.
Proof.
  intros Hrun.
  destruct (parseTraceFile_spec text) as (h0 & Hrun0 & Hso & _).
  assert (h0 = h ∧ allTraces (parseSections text) = roots) as [-> <-].
  { specialize (Hrun0 (S (fuel + length h0)) ltac:(lia)).
    rewrite (parseTraceFile_fuel_mono fuel (S (fuel + length h0)) _ _
               ltac:(lia) Hrun) in Hrun0. by simplify_eq. }
  pose proof (parseSections_Inv text) as HI. simpl in HI.
  destruct HI as [_ Hs _ _ _ Hsep _ _ _].
  split; [by apply index_sorted_StronglySorted|].
  intros b x y Hb He Hxb.
  apply (edge_same_children (fheap (parseSections text)) h) in He;
    [|by apply stackIds_only_same_children].
  destruct He as (tx & Hx & Hy). by eapply Hsep.
Qed.

Lemma parsed_flatten_sorted fuel text h roots k :
  parseTraceFile fuel text = Some (h, roots) →
  length h < k →
  ∃ out,
    flattenTraces k h roots = Some out ∧
    StronglySorted lt out ∧
    ∀ n, n ∈ out ↔ ∃ a, a ∈ roots ∧ descendant h a n.
Proof.
  intros Hrun Hk.
  destruct (parseTraceFile_forest _ _ _ _ Hrun) as (Ho & _ & Hb & _).
  destruct (parseTraceFile_Forest _ _ _ _ Hrun) as [_ _ Hcs _ _ _ Hnc].
  destruct (parseTraceFile_roots _ _ _ _ Hrun) as [Hsorted Hsep].
  apply (flattenTraces_sorted h Ho) with (lo := 0); try done.
  - intros p t Ht. apply index_sorted_StronglySorted.
    intros i j a b. by apply (Hcs p t).
  - lia.
  - intros r Hr. specialize (Hb r Hr). lia.
  - intros b x y Hbr He _. by apply Hsep.
Qed.

(** X6. On a parsed forest [flattenTraces] returns, with fuel beyond the
    size of the store, the nodes of the forest (the roots and everything
    below them, nothing else) in strictly increasing allocation order,
    that is in the order of their lines in the document, each once. *)
Theorem flatten_is_document_order fuel text h roots k :
  parseTraceFile fuel text = Some (h, roots) →
  length h < k →
  ∃ out,
    flattenTraces k h roots = Some out ∧
    StronglySorted lt out ∧
    ∀ n, n ∈ out ↔ ∃ a, a ∈ roots ∧ descendant h a n.
Proof. apply parsed_flatten_sorted. Qed.

Lemma flatten_is_document_order_witness :
  ∃ h, parseTraceFile 9 nested_document = Some (h, [0; 3]) ∧
       flattenTraces 6 h [0; 3] = Some [0; 1; 2; 3; 4].
Proof.
  destruct (parseTraceFile 9 nested_document) as [[h roots]|] eqn:E;
    [|by vm_compute in E].
  assert (length h = 5 ∧ roots = [0; 3]) as [Hlen ->].
  { vm_compute in E. by simplify_eq. }
  destruct (flatten_is_document_order _ _ _ _ 6 E) as (out & Hout & _ & _);
    [lia|].
  exists h. split; [done|]. rewrite Hout. f_equal.
  vm_compute in E. simplify_eq. vm_compute in Hout. by simplify_eq.
Defined.

(** ** Collecting the ids *)

Lemma collectIds_S k h r ids t :
  h !! r = Some t →
  collectIds (S k) h r ids =
  forEach_ref (collectIds k h) (children t) (ids ++ [id t]).
Proof. intros Ht. simpl. by rewrite Ht. Qed.

Lemma flatten_push_Some rec h r x :
  flatten_push rec h r [] = Some x →
  ∃ t sub,
    h !! r = Some t ∧ x = r :: sub ∧
    (if bool_decide (0 < length (children t))
     then rec (children t) else Some []) = Some sub.
Proof.
  unfold flatten_push. destruct (h !! r) as [t|]; [|done]. simpl.
  destruct (if bool_decide (0 < length (children t))
            then rec (children t) else Some []) as [sub|] eqn:E; [|done].
  simpl. intros; simplify_eq. by exists t, sub.
Qed.

Lemma forEach_collect h k : ∀ l out ids0,
  flattenTraces k h l = Some out →
  ∃ ids,
    forEach_ref (collectIds k h) l ids0 = Some (ids0 ++ ids) ∧
    Forall2 (λ r y, ∃ t, h !! r = Some t ∧ id t = y) out ids.
Proof.
  induction k as [|k IH]; [done|]. intros l out ids0.
  change (flattenTraces (S k) h l)
    with (forEach_ref (flatten_push (flattenTraces k h) h) l []).
  revert out ids0. induction l as [|r l IHl]; intros out ids0 Hrun.
  { cbn [forEach_ref] in *. simplify_eq. exists []. by rewrite app_nil_r. }
  cbn [forEach_ref] in Hrun.
  destruct (flatten_push (flattenTraces k h) h r []) as [x|] eqn:Hx;
    [|done].
  cbn [mbind option_bind] in Hrun. rewrite forEach_flatten_acc in Hrun.
  destruct (forEach_ref (flatten_push (flattenTraces k h) h) l [])
    as [out0|] eqn:Hout0; [|done].
  cbn [fmap option_fmap option_map] in Hrun. simplify_eq.
  apply flatten_push_Some in Hx as (t & sub & Ht & -> & Hsub).
  assert (∃ ids_sub,
            forEach_ref (collectIds k h) (children t) (ids0 ++ [id t])
              = Some ((ids0 ++ [id t]) ++ ids_sub) ∧
            Forall2 (λ r y, ∃ t, h !! r = Some t ∧ id t = y) sub ids_sub)
    as (ids_sub & Hids_sub & HRsub).
  { case_bool_decide as Hne; [by apply IH|]. simplify_eq. exists [].
    destruct (children t); [|simpl in Hne; lia].
    split; [by rewrite app_nil_r | constructor]. }
  destruct (IHl out0 ((ids0 ++ [id t]) ++ ids_sub) eq_refl)
    as (ids & Hids & HR).
  exists (id t :: ids_sub ++ ids). split.
  - cbn [forEach_ref]. rewrite (collectIds_S _ _ _ _ _ Ht), Hids_sub.
    cbn [mbind option_bind]. rewrite Hids. f_equal.
    by rewrite <- !app_assoc.
  - constructor; [by eauto|]. by apply Forall2_app.
Qed.

(** X7. Wherever [flattenTraces] returns, [getAllTraceIds] returns with
    the same fuel, and its result is the list of the ids of the flattened
    nodes, in the same order. *)
Theorem ids_of_flattened fuel h traces out :
  flattenTraces fuel h traces = Some out →
  ∃ ids,
    getAllTraceIds fuel h traces = Some ids ∧
    Forall2 (λ r y, ∃ t, h !! r = Some t ∧ id t = y) out ids.
Proof.
  intros Hrun.
  destruct (forEach_collect h fuel traces out [] Hrun) as (ids & Hids & HR).
  exists ids. by split.
Qed.

Lemma ids_of_flattened_witness :
  ∃ ids, getAllTraceIds 3 example1_heap [0] = Some ids ∧
         ids = [trace_id 0; trace_id 1].
Proof.
  destruct (ids_of_flattened 3 example1_heap [0] [0; 1])
    as (ids & Hids & HR).
  { vm_compute. reflexivity. }
  exists ids. split; [done|].
  vm_compute in Hids. by simplify_eq.
Defined.

Lemma parseTraceFile_ids_inj fuel text h roots :
  parseTraceFile fuel text = Some (h, roots) →
  ∀ r1 r2 t1 t2,
    h !! r1 = Some t1 → h !! r2 = Some t2 → id t1 = id t2 → r1 = r2.
Proof.
  intros Hrun.
  destruct (parseTraceFile_ids_unique text) as (h0 & roots0 & Hrun0 & Hinj).
  specialize (Hrun0 (S (fuel + length h0)) ltac:(lia)).
  rewrite (parseTraceFile_fuel_mono fuel (S (fuel + length h0)) _ _
             ltac:(lia) Hrun) in Hrun0. by simplify_eq.
Qed.

Lemma StronglySorted_lt_NoDup (l : list nat) : StronglySorted lt l → NoDup l.
Proof.
  induction 1 as [|x l _ IH Hx]; constructor; [|done].
  intros Hin. rewrite Forall_forall in Hx. specialize (Hx x Hin). lia.
Qed.

(** X8. On a parsed forest of the variant with the global counter,
    [getAllTraceIds] returns, with fuel beyond the size of the store, the
    id of every node of the forest and no other id, each exactly once:
    "expand all" expands every node. *)
Theorem all_ids_once fuel text h roots k :
  parseTraceFile fuel text = Some (h, roots) →
  length h < k →
  ∃ ids,
    getAllTraceIds k h roots = Some ids ∧
    NoDup ids ∧
    ∀ y, y ∈ ids ↔
         ∃ a n t, a ∈ roots ∧ descendant h a n ∧ h !! n = Some t ∧ id t = y.
Proof.
  intros Hrun Hk.
  destruct (parsed_flatten_sorted _ _ _ _ k Hrun Hk)
    as (out & Hout & Hsorted & Hmem).
  destruct (forEach_collect h k roots out [] Hout) as (ids & Hids & HR).
  exists ids. split; [done|].
  pose proof (parseTraceFile_ids_inj _ _ _ _ Hrun) as Hinj.
  apply StronglySorted_lt_NoDup in Hsorted. split.
  - clear Hmem Hout Hids.
    induction HR as [|r y out ids (t & Ht & <-) HR' IH]; [constructor|].
    apply NoDup_cons in Hsorted as [Hr Hnd]. constructor; [|by apply IH].
    intros Hin. apply list_elem_of_lookup_1 in Hin as [i Hi].
    destruct (Forall2_lookup_r _ _ _ _ _ HR' Hi) as (r' & Hr' & t' & Ht' & E).
    assert (r' = r) as -> by by eapply Hinj.
    apply Hr. by eapply list_elem_of_lookup_2.
  - intros y. split.
    + intros [i Hi]%list_elem_of_lookup_1.
      destruct (Forall2_lookup_r _ _ _ _ _ HR Hi) as (n & Hn & t & Ht & E).
      apply list_elem_of_lookup_2, Hmem in Hn as (a & Ha & Hd).
      by exists a, n, t.
    + intros (a & n & t & Ha & Hd & Ht & <-).
      assert (n ∈ out) as [i Hi]%list_elem_of_lookup_1
        by (apply Hmem; eauto).
      destruct (Forall2_lookup_l _ _ _ _ _ HR Hi) as (y & Hy & t' & Ht' & E).
      simplify_eq. by eapply list_elem_of_lookup_2.
Qed.

Lemma all_ids_once_witness :
  ∃ h ids, parseTraceFile 9 nested_document = Some (h, [0; 3]) ∧
           getAllTraceIds 6 h [0; 3] = Some ids ∧ NoDup ids ∧ length ids = 5.
Proof.
  destruct (parseTraceFile 9 nested_document) as [[h roots]|] eqn:E;
    [|by vm_compute in E].
  assert (length h = 5 ∧ roots = [0; 3]) as [Hlen ->].
  { vm_compute in E. by simplify_eq. }
  destruct (all_ids_once _ _ _ _ 6 E) as (ids & Hids & Hnd & _); [lia|].
  exists h, ids. split; [done|]. split; [done|]. split; [done|].
  vm_compute in E. simplify_eq. vm_compute in Hids. by simplify_eq.
Defined.

(** ** Which nodes are lost *)

Lemma descendant_trans_edge h a p c :
  descendant h a p → edge h p c → descendant h a c.
Proof.
  intros Hd (tp & Hp & Hc). induction Hd as [|r t x n Ht Hx _ IH].
  - eapply desc_step; [done | done | constructor].
  - eapply desc_step; [done | done | by apply IH].
Qed.

Lemma descendant_mono h h' a n :
  (∀ x y, edge h x y → edge h' x y) →
  descendant h a n → descendant h' a n.
Proof.
  intros Hmono. induction 1 as [|r t c n Ht Hc _ IH]; [constructor|].
  destruct (Hmono r c) as (t' & Ht' & Hc'); [by exists t|].
  by eapply desc_step.
Qed.

Lemma edge_snoc_mono (h : Heap) t x y : edge h x y → edge (h ++ [t]) x y.
Proof.
  intros (tx & Hx & Hy). exists tx. split; [|done].
  by apply lookup_app_l_Some.
Qed.

Lemma edge_push_child_mono (h : Heap) t p x y :
  edge h x y → edge (push_child (h ++ [t]) p (length h)) x y.
Proof.
  intros (tx & Hx & Hy). pose proof (lookup_lt_Some _ _ _ Hx) as Hlt.
  unfold push_child. destruct (decide (x = p)) as [->|Hne].
  - exists (set_children (children tx ++ [length h]) tx).
    rewrite list_lookup_alter_eq, lookup_app_l, Hx by done.
    split; [done|]. simpl. apply elem_of_app. by left.
  - exists tx. rewrite list_lookup_alter_ne, lookup_app_l by done. done.
Qed.

Lemma edge_push_child_new (h : Heap) t p :
  p < length h → edge (push_child (h ++ [t]) p (length h)) p (length h).
Proof.
  intros Hp. destruct (lookup_lt_is_Some_2 h p Hp) as [tp Htp].
  exists (set_children (children tp ++ [length h]) tp).
  unfold push_child. rewrite list_lookup_alter_eq, lookup_app_l, Htp by done.
  split; [done|]. simpl. apply elem_of_app. right. by left.
Qed.

Lemma attach_run_ok prev n0 st t :
  Inv (heap st) (prev ++ rootTraces st) (currentStack st) (lineId st) →
  n0 ≤ length (heap st) →
  run_ok n0 st → run_ok n0 (attach st t).
Proof.
  intros HI Hn0 (Hstack & Hne & Hall).
  destruct HI as [_ _ Hrb Hsb _ _ _ _ _].
  assert (∀ a, a ∈ rootTraces st → a < length (heap st)) as Hroots.
  { intros a Ha. apply Hrb, elem_of_app. by right. }
  (* a node attached below the stack element [p] *)
  assert (∀ p K,
    p ∈ currentStack st →
    (∀ s, s ∈ K → s ∈ currentStack st) →
    depth t ≠ 0 →
    run_ok n0 (mkPState (push_child (heap st ++ [t]) p (length (heap st)))
                 (rootTraces st) (K ++ [length (heap st)])
                 (S (lineId st)))) as Hchild.
  { intros p K Hp HK Hd.
    pose proof (Hsb p Hp) as Hplt.
    destruct (Hstack p Hp) as (ap & Hap & Hdp).
    assert (descendant (push_child (heap st ++ [t]) p (length (heap st)))
              ap (length (heap st))) as Hnew.
    { eapply descendant_trans_edge; [|by apply edge_push_child_new].
      eapply descendant_mono; [|exact Hdp].
      intros x y. apply edge_push_child_mono. }
    split; [|split]; simpl.
    - intros s [Hs| ->%list_elem_of_singleton]%elem_of_app; [|by eauto].
      destruct (Hstack s (HK s Hs)) as (a & Ha & Hda). exists a.
      split; [done|]. eapply descendant_mono; [|exact Hda].
      intros x y. apply edge_push_child_mono.
    - intros _. by destruct K.
    - intros n tn Hn Htn.
      apply depth_push_child in Htn; [|done].
      destruct Htn as [(Hlt & t0 & Ht0 & Hd0)|[-> ->]]; [|by left; eauto].
      destruct (Hall n t0 Hn Ht0) as [(a & Ha & Hda)|[? ?]].
      + left. exists a. split; [done|].
        eapply descendant_mono; [|exact Hda].
        intros x y. apply edge_push_child_mono.
      + right. split; [congruence | done]. }
  unfold attach. case_bool_decide as Hd.
  { split; [|split]; simpl.
    - intros s ->%list_elem_of_singleton. exists (length (heap st)).
      split; [|constructor]. apply elem_of_app. right. by left.
    - done.
    - intros n tn Hn [[Hlt Htn]|[-> ->]]%heap_lookup_snoc.
      + destruct (Hall n tn Hn Htn) as [(a & Ha & Hda)|[? Hbefore]].
        * left. exists a. split; [apply elem_of_app; by left|].
          eapply descendant_mono; [|exact Hda].
          intros x y. apply edge_snoc_mono.
        * right. split; [done|].
          intros a [Ha| ->%list_elem_of_singleton]%elem_of_app; by auto.
      + left. exists (length (heap st)).
        split; [|constructor]. apply elem_of_app. right. by left. }
  case_bool_decide as Hle.
  { destruct (attach_slice_defined (currentStack st) (depth t))
      as (p & -> & Hp); [done..|].
    apply Hchild; [done | | done].
    intros s (i & Hs & _)%elem_of_take. by eapply list_elem_of_lookup_2. }
  assert (∀ K,
    (∀ s, s ∈ K → s ∈ currentStack st) → currentStack st = [] → K = [] →
    run_ok n0 (mkPState (heap st ++ [t]) (rootTraces st) K
                 (S (lineId st)))) as Hdrop.
  { intros K HK Hempty ->.
    assert (rootTraces st = []) as Hnoroot.
    { destruct (rootTraces st) eqn:E; [done|]. by destruct Hne. }
    split; [|split]; simpl.
    - intros s Hs. by apply elem_of_nil in Hs.
    - by rewrite Hnoroot.
    - intros n tn Hn [[Hlt Htn]|[-> ->]]%heap_lookup_snoc.
      + destruct (Hall n tn Hn Htn) as [(a & Ha & _)|[? ?]]; [|by right].
        rewrite Hnoroot in Ha. by apply elem_of_nil in Ha.
      + right. split; [done|]. intros a Ha.
        rewrite Hnoroot in Ha. by apply elem_of_nil in Ha. }
  case_bool_decide as Hgt.
  { destruct (last (currentStack st)) as [p|] eqn:Hlast.
    - apply Hchild; [by apply last_Some_elem_of | done | done].
    - apply last_None in Hlast. rewrite Hlast in Hgt. simpl in Hgt. lia. }
  assert (currentStack st = []) as Hempty.
  { destruct (currentStack st); [done | simpl in *; lia]. }
  rewrite Hempty.
  apply (Hdrop []); [by intros s ?%elem_of_nil | done | done].
Qed.

Lemma parseLines_run_ok prev n0 lines : ∀ st,
  Inv (heap st) (prev ++ rootTraces st) (currentStack st) (lineId st) →
  n0 ≤ length (heap st) →
  run_ok n0 st → run_ok n0 (foldl parseLine st lines).
Proof.
  induction lines as [|line lines IH]; intros st HI Hn0 Hok; simpl; [done|].
  apply IH; [by apply parseLine_Inv | |].
  - unfold parseLine. destruct (classifyLine _ _) as [t|]; [|done].
    unfold attach. repeat (case_bool_decide || case_match); simpl;
      rewrite ?length_push_child, ?length_app; lia.
  - unfold parseLine. destruct (classifyLine _ _) as [t|]; [|done].
    by eapply attach_run_ok.
Qed.

(** X9. In one run of [parseTraceLines], on the store left by the earlier
    sections, every object created by the run is either in the forest of
    the run's roots, or it is an indented node (depth not 0) created
    before the first root of the run; never both.  So lines are lost only
    in front of the first root of their section. *)
Theorem lost_only_before_first_root h0 R0 n0 lines :
  Inv h0 R0 [] n0 →
  let st := parseTraceLines_from h0 lines n0 in
  ∀ n t,
    length h0 ≤ n → heap st !! n = Some t →
    let in_forest := ∃ a, a ∈ rootTraces st ∧ descendant (heap st) a n in
    let before_roots := ∀ a, a ∈ rootTraces st → n < a in
    (in_forest ∨ (depth t ≠ 0 ∧ before_roots)) ∧
    (rootTraces st ≠ [] → ¬ (in_forest ∧ before_roots)).
Proof.
  intros HI st n t Hn Ht in_forest before_roots.
  unfold parseTraceLines_from in st.
  destruct (parseLines_Inv R0 lines (mkPState h0 [] [] n0)) as [HI' _].
  { simpl. by rewrite app_nil_r. }
  destruct (parseLines_run_ok R0 (length h0) lines (mkPState h0 [] [] n0))
    as (_ & _ & Hall).
  { simpl. by rewrite app_nil_r. }
  { done. }
  { split; [|split]; simpl.
    - intros s Hs. by apply elem_of_nil in Hs.
    - done.
    - intros m tm Hm Htm. apply lookup_lt_Some in Htm. lia. }
  split; [by apply Hall|].
  intros Hne [(a & Ha & Hd) Hbefore].
  specialize (Hbefore a Ha).
  apply descendant_ge in Hd; [lia|]. exact (inv_children _ _ _ _ HI').
Qed.

Lemma lost_only_before_first_root_witness :
  ∃ h, parseTraceLines [] orphan_lines 0 = (h, [1]) ∧
       descendant h 1 2 ∧
       ¬ ∃ a, a ∈ [1] ∧ descendant h a 0.
Proof.
  pose (st := parseTraceLines_from [] orphan_lines 0).
  assert (rootTraces st = [1] ∧ length (heap st) = 3) as [Hroots Hlen].
  { by vm_compute. }
  exists (heap st). split; [by vm_compute|].
  destruct (lookup_lt_is_Some_2 (heap st) 2) as [t2 Ht2]; [lia|].
  destruct (lookup_lt_is_Some_2 (heap st) 0) as [t0 Ht0]; [lia|].
  pose proof (lost_only_before_first_root [] [] 0 orphan_lines Inv_empty)
    as H. cbv zeta in H.
  change (parseTraceLines_from [] orphan_lines 0) with st in H.
  destruct (H 2 t2 ltac:(simpl; lia) Ht2) as [[(a & Ha & Hd)|[_ Hb]] _].
  - rewrite Hroots in Ha. apply list_elem_of_singleton in Ha as ->.
    split; [done|].
    destruct (H 0 t0 ltac:(simpl; lia) Ht0) as [_ Hexcl].
    intros (a & Ha & Hd0). apply Hexcl.
    + by rewrite Hroots.
    + split; [rewrite Hroots; eauto|].
      intros b. rewrite Hroots. intros ->%list_elem_of_singleton. lia.
  - specialize (Hb 1). rewrite Hroots in Hb.
    specialize (Hb ltac:(by left)). lia.
Defined.

(** ** What a search highlights *)

Lemma parents_linked_below h :
  children_ordered h → parents_linked h → parents_below h.
Proof.
  intros Ho Hl r t p Ht Hp.
  destruct (Hl r t p Ht Hp) as (tp & Htp & Hc).
  specialize (Ho p tp r Htp Hc). lia.
Qed.

Lemma parents_linked_frame lo h h' :
  parents_linked h → parent_frame lo h h' → parents_linked h'.
Proof.
  intros Hl Hf x t' p Ht' Hp.
  pose proof (parent_frame_same_children _ _ _ Hf) as Hs.
  destruct (same_children_lookup _ _ _ _ Hs Ht') as (t & Ht & _).
  destruct (proj2 Hf _ _ Ht) as (t'' & ? & _ & Hor). simplify_eq.
  apply (edge_same_children h h'); [done|].
  destruct Hor as [Heq | (_ & q & Hq & He)].
  - eapply Hl; [done|]. by rewrite <- Heq.
  - by simplify_eq.
Qed.

Lemma up_descendant h r a :
  parents_linked h → up h r a → descendant h a r.
Proof.
  intros Hl. induction 1 as [|r t p a Ht Hp _ IH]; [constructor|].
  eapply descendant_trans_edge; [exact IH|]. by eapply Hl.
Qed.

Lemma parent_frame_lookup_back lo h h' x t' :
  parent_frame lo h h' → h' !! x = Some t' →
  ∃ t, h !! x = Some t ∧ id t' = id t ∧ content t' = content t.
Proof.
  intros Hf Ht'.
  destruct (same_children_lookup _ _ _ _
              (parent_frame_same_children _ _ _ Hf) Ht') as (t & Ht & _).
  exists t. split; [done|]. by eapply parent_frame_payload.
Qed.

Lemma addParents_sound k : ∀ h cur m m',
  addParents k h cur m = Some m' →
  ∀ y, y ∈ m' →
       y ∈ m ∨ ∃ a ta, up h cur a ∧ h !! a = Some ta ∧ id ta = y.
Proof.
  induction k as [|k IH]; intros h cur m m' Hrun y Hy; [done|].
  simpl in Hrun. destruct (h !! cur) as [t|] eqn:Ht; [|done]. simpl in Hrun.
  destruct (parent t) as [p|] eqn:Hp; [|by left; simplify_eq].
  destruct (h !! p) as [pt|] eqn:Hpt; [|done]. simpl in Hrun.
  destruct (IH _ _ _ _ Hrun y Hy) as [Hin|(a & ta & Hup & Hta & E)].
  - apply elem_of_set_add in Hin as [->|?]; [|by left].
    right. exists p, pt. split; [|done].
    eapply up_step; [done | done | constructor].
  - right. exists a, ta. split; [|done]. by eapply up_step.
Qed.

Section SearchSound.

Variable toLowerCase : jsstring → jsstring.

(** One call of [findMatches] adds to the match set only ids of nodes
    that have a matching node of the visited subtree below them. *)
Lemma findMatches_sound term k : ∀ r h m h' m',
  children_ordered h → parents_linked h →
  r < length h → 2 * length h ≤ k + r →
  findMatches toLowerCase k term r (h, m) = Some (h', m') →
  ∀ y, y ∈ m' →
    y ∈ m ∨
    ∃ a n ta tn,
      descendant h r n ∧ h !! n = Some tn ∧
      content_matches toLowerCase term tn = true ∧
      descendant h a n ∧ h !! a = Some ta ∧ id ta = y.
Proof.
  induction k as [|k IH]; intros r h m h' m' Ho Hl Hr Hfuel Hrun; [lia|].
  destruct (lookup_lt_is_Some_2 h r Hr) as [t Ht].
  rewrite (findMatches_S _ _ _ _ _ _ _ Ht) in Hrun.
  destruct (if content_matches toLowerCase term t
            then addParents k h r (set_add (id t) m) else Some m)
    as [m1|] eqn:Hm1; [|done].
  simpl in Hrun.
  assert (∀ y, y ∈ m1 →
            y ∈ m ∨
            ∃ a ta, content_matches toLowerCase term t = true ∧
                    descendant h a r ∧ h !! a = Some ta ∧ id ta = y)
    as Hself.
  { destruct (content_matches toLowerCase term t) eqn:Hmatch;
      [|by left; simplify_eq].
    intros y Hy.
    destruct (addParents_sound _ _ _ _ _ Hm1 y Hy)
      as [Hin|(a & ta & Hup & Hta & E)].
    - apply elem_of_set_add in Hin as [->|?]; [|by left].
      right. exists r, t. split; [done|]. split; [constructor | done].
    - right. exists a, ta. split; [done|].
      split; [by apply up_descendant | done]. }
  assert (∀ cs hi mi h' m',
    (∀ c, c ∈ cs → c ∈ children t) →
    parent_frame r h hi →
    forEach_child (findMatches toLowerCase k term) r cs (hi, mi)
      = Some (h', m') →
    ∀ y, y ∈ m' →
      y ∈ mi ∨
      ∃ a n ta tn,
        descendant h r n ∧ h !! n = Some tn ∧
        content_matches toLowerCase term tn = true ∧
        descendant h a n ∧ h !! a = Some ta ∧ id ta = y) as Hloop.
  { induction cs as [|c cs IHcs]; intros hi mi h2' m2' Hcs Hfi Hloop y Hy.
    { simpl in Hloop. simplify_eq. by left. }
    assert (c ∈ children t) as Hc by (apply Hcs; by left).
    pose proof (Ho _ _ _ Ht Hc) as Hrc.
    pose proof (parent_frame_same_children _ _ _ Hfi) as Hsi.
    assert (parent_frame r hi (alter (set_parent (Some r)) c hi)) as Hfa.
    { apply parent_frame_alter; [|lia].
      apply (edge_same_children h hi); [done|]. by exists t. }
    simpl in Hloop.
    set (hc := alter (set_parent (Some r)) c hi) in *.
    assert (parent_frame r h hc) as Hfc by by eapply parent_frame_trans.
    pose proof (parent_frame_same_children _ _ _ Hfc) as Hsc.
    assert (children_ordered hc) as Hoc by by eapply children_ordered_same.
    assert (parents_linked hc) as Hlc by by eapply parents_linked_frame.
    destruct (findMatches_spec toLowerCase term k c hc mi)
      as (h2 & m2 & Hrun2 & Hf2 & _);
      [done | by apply parents_linked_below
       | rewrite (proj1 Hsc); lia | rewrite (proj1 Hsc); lia |].
    rewrite Hrun2 in Hloop. simpl in Hloop.
    assert (parent_frame r h h2) as Hfh2.
    { eapply parent_frame_trans; [done|].
      apply (parent_frame_weaken r c); [lia | done]. }
    assert (∀ c', c' ∈ cs → c' ∈ children t) as Hcs'.
    { intros c' Hc'. apply Hcs. by right. }
    destruct (IHcs h2 m2 h2' m2' Hcs' Hfh2 Hloop y Hy) as [Hin|Hnew];
      [|by right].
    assert (c < length hc) as Hclt by (rewrite (proj1 Hsc); lia).
    assert (2 * length hc ≤ k + c) as Hcfuel by (rewrite (proj1 Hsc); lia).
    destruct (IH c hc mi h2 m2 Hoc Hlc Hclt Hcfuel Hrun2 y Hin)
      as [?|(a & n & ta & tn & Hd & Htn & Hm & Hda & Hta & E)]; [by left|].
    right.
    destruct (parent_frame_lookup_back _ _ _ _ _ Hfc Htn)
      as (tn0 & Htn0 & _ & Hcn).
    destruct (parent_frame_lookup_back _ _ _ _ _ Hfc Hta)
      as (ta0 & Hta0 & Hia & _).
    exists a, n, ta0, tn0. split.
    { eapply desc_step; [done | done |].
      by apply (descendant_same_children h hc). }
    split; [done|]. split.
    { rewrite <- Hm. symmetry. by apply content_matches_payload. }
    split; [by apply (descendant_same_children h hc)|].
    split; [done | congruence]. }
  intros y Hy.
  destruct (Hloop (children t) h m1 h' m' ltac:(done)
              (parent_frame_refl _ _) Hrun y Hy) as [Hin|Hnew]; [|by right].
  destruct (Hself y Hin) as [?|(a & ta & Hmatch & Hd & Hta & E)];
    [by left|].
  right. exists a, r, ta, t. split; [constructor|]. by repeat split.
Qed.

(** X10. A search with a non-blank term highlights nothing but matching
    nodes and nodes above them: every id in the match set is the id of a
    node below which, in the subtree of one of the roots, some node has a
    content holding the term (both in lower case). *)
Theorem search_highlights_only_ancestors h traces term fuel :
  children_ordered h → parents_linked h →
  (∀ a, a ∈ traces → a < length h) →
  2 * length h ≤ fuel →
  trim term ≠ [] →
  ∃ h' matches,
    handleSearch toLowerCase fuel term h traces = Some (h', matches) ∧
    ∀ y, y ∈ matches →
      ∃ root a n ta tn,
        root ∈ traces ∧ descendant h root n ∧ h !! n = Some tn ∧
        contains (toLowerCase (content tn)) (toLowerCase term) ∧
        descendant h a n ∧ h !! a = Some ta ∧ id ta = y.
Proof.
  intros Ho Hl Hb Hfuel Hterm. unfold handleSearch.
  rewrite bool_decide_eq_false_2 by done.
  assert (∀ l h1 m1,
    (∀ a, a ∈ l → a ∈ traces) →
    parent_frame 0 h h1 →
    ∃ h' m',
      forEach_findMatches toLowerCase fuel term l (h1, m1) = Some (h', m') ∧
      ∀ y, y ∈ m' →
        y ∈ m1 ∨
        ∃ root a n ta tn,
          root ∈ traces ∧ descendant h root n ∧ h !! n = Some tn ∧
          contains (toLowerCase (content tn)) (toLowerCase term) ∧
          descendant h a n ∧ h !! a = Some ta ∧ id ta = y) as Hall.
  { induction l as [|r l IHl]; intros h1 m1 Hsub Hf1.
    { exists h1, m1. split; [done|]. by left. }
    pose proof (parent_frame_same_children _ _ _ Hf1) as Hs1.
    assert (children_ordered h1) as Ho1 by by eapply children_ordered_same.
    assert (parents_linked h1) as Hl1 by by eapply parents_linked_frame.
    assert (r < length h1) as Hr1.
    { rewrite (proj1 Hs1). apply Hb, Hsub. by left. }
    destruct (findMatches_spec toLowerCase term fuel r h1 m1)
      as (h2 & m2 & Hrun2 & Hf2 & _);
      [done | by apply parents_linked_below | done
       | rewrite (proj1 Hs1); lia |].
    destruct (IHl h2 m2) as (h' & m' & Hrun' & Hsound').
    { intros a Ha. apply Hsub. by right. }
    { eapply parent_frame_trans; [done|].
      apply (parent_frame_weaken 0 r); [lia | done]. }
    exists h', m'. split; [by simpl; rewrite Hrun2|].
    intros y Hy. destruct (Hsound' y Hy) as [Hin|?]; [|by right].
    assert (2 * length h1 ≤ fuel + r) as Hfuel1 by (rewrite (proj1 Hs1); lia).
    destruct (findMatches_sound term fuel r h1 m1 h2 m2 Ho1 Hl1 Hr1 Hfuel1
                Hrun2 y Hin)
      as [?|(a & n & ta & tn & Hd & Htn & Hm & Hda & Hta & E)]; [by left|].
    right.
    destruct (parent_frame_lookup_back _ _ _ _ _ Hf1 Htn)
      as (tn0 & Htn0 & _ & Hcn).
    destruct (parent_frame_lookup_back _ _ _ _ _ Hf1 Hta)
      as (ta0 & Hta0 & Hia & _).
    exists r, a, n, ta0, tn0.
    split; [apply Hsub; by left|].
    split; [by apply (descendant_same_children h h1)|].
    split; [done|]. split.
    { apply includes_spec. unfold content_matches in Hm.
      by rewrite <- Hcn. }
    split; [by apply (descendant_same_children h h1)|].
    split; [done | congruence]. }
  destruct (Hall traces h []) as (h' & m' & Hrun & Hsound);
    [done | apply parent_frame_refl |].
  exists h', m'. split; [done|].
  intros y Hy. destruct (Hsound y Hy) as [Hin|?]; [|done].
  by apply elem_of_nil in Hin.
Qed.

End SearchSound.

Lemma search_highlights_only_ancestors_witness :
  ∃ h' m,
    handleSearch ascii_lower 4 (str "RETURN") example1_heap [0]
      = Some (h', m) ∧
    ∀ y, y ∈ m → y = trace_id 0 ∨ y = trace_id 1.
Proof.
  destruct (parseTraceFile_forest _ _ _ _ example1_heap_parsed)
    as (Ho & _ & Hb & Hnone).
  destruct (search_highlights_only_ancestors ascii_lower example1_heap [0]
              (str "RETURN") 4 Ho)
    as (h' & m & Hrun & Hsound).
  { intros x t p Ht Hp. by rewrite (Hnone x t Ht) in Hp. }
  { done. }
  { vm_compute. lia. }
  { by vm_compute. }
  exists h', m. split; [done|].
  intros y Hy.
  destruct (Hsound y Hy)
    as (_ & a & _ & ta & _ & _ & _ & _ & _ & _ & Hta & <-).
  assert (a < 2) as Ha by (apply lookup_lt_Some in Hta; by vm_compute in Hta).
  destruct a as [|[|a]]; [| |lia]; vm_compute in Hta; simplify_eq; auto.
Defined.

(** ** The argument splitter *)

Lemma bracket_depth_app s1 s2 :
  bracket_depth (s1 ++ s2) = (bracket_depth s1 + bracket_depth s2)%Z.
Proof. induction s1 as [|c s1 IH]; simpl; lia. Qed.

Lemma processArgs_step_other st c :
  (c = comma → parenDepth st ≠ 0%Z) →
  processArgs_step st c =
    {| result := result st;
       currentArg := currentArg st ++ [c];
       parenDepth := parenDepth st + bracket_delta c |}.
Proof.
  intros Hc. unfold processArgs_step, bracket_delta.
  destruct (is_open_bracket c); [done|].
  destruct (is_close_bracket c); [done|].
  destruct (c =? comma)%N eqn:E.
  - apply N.eqb_eq in E. specialize (Hc E).
    destruct (Z.eqb_spec (parenDepth st) 0); [done|].
    simpl. f_equal. lia.
  - simpl. f_equal. lia.
Qed.

(** Between two splitting commas the loop only copies. *)
Lemma processArgs_loop_copy s : ∀ st,
  (∀ s1 s2, s = s1 ++ comma :: s2 →
            (parenDepth st + bracket_depth s1)%Z ≠ 0%Z) →
  processArgs_loop st s =
    {| result := result st;
       currentArg := currentArg st ++ s;
       parenDepth := parenDepth st + bracket_depth s |}.
Proof.
  unfold processArgs_loop.
  induction s as [|c s IH]; intros st Hs; simpl.
  { destruct st; simpl. f_equal; [by rewrite app_nil_r | lia]. }
  rewrite processArgs_step_other.
  2: { intros ->. specialize (Hs [] s eq_refl). simpl in Hs. lia. }
  rewrite IH; simpl.
  - f_equal; [by rewrite <- app_assoc | lia].
  - intros s1 s2 ->. specialize (Hs (c :: s1) s2 eq_refl).
    simpl in Hs. lia.
Qed.

Lemma processArgs_step_result r cur d c :
  processArgs_step {| result := r; currentArg := cur; parenDepth := d |} c =
  let st := processArgs_step
              {| result := []; currentArg := cur; parenDepth := d |} c in
  {| result := r ++ result st;
     currentArg := currentArg st;
     parenDepth := parenDepth st |}.
Proof.
  unfold processArgs_step; simpl.
  destruct (is_open_bracket c); [by rewrite app_nil_r|].
  destruct (is_close_bracket c); [by rewrite app_nil_r|].
  destruct ((c =? comma)%N && (d =? 0)%Z); simpl; by rewrite ?app_nil_r.
Qed.

(** Arguments found earlier are never touched again. *)
Lemma processArgs_loop_result s : ∀ r cur d,
  processArgs_loop {| result := r; currentArg := cur; parenDepth := d |} s =
  let st := processArgs_loop
              {| result := []; currentArg := cur; parenDepth := d |} s in
  {| result := r ++ result st;
     currentArg := currentArg st;
     parenDepth := parenDepth st |}.
Proof.
  unfold processArgs_loop.
  induction s as [|c s IH]; intros r cur d; simpl.
  { by rewrite app_nil_r. }
  rewrite processArgs_step_result.
  destruct (processArgs_step
              {| result := []; currentArg := cur; parenDepth := d |} c)
    as [r1 c1 d1]. simpl.
  rewrite (IH (r ++ r1)). rewrite (IH r1). simpl.
  by rewrite <- app_assoc.
Qed.

Lemma processArgs_loop_trimmed s : ∀ st,
  Forall (λ a, trim a = a) (result st) →
  Forall (λ a, trim a = a) (result (processArgs_loop st s)).
Proof.
  unfold processArgs_loop.
  induction s as [|c s IH]; intros st Hst; [done|]. simpl.
  apply IH. unfold processArgs_step.
  destruct (is_open_bracket c); [done|].
  destruct (is_close_bracket c); [done|].
  destruct ((c =? comma)%N && (parenDepth st =? 0)%Z); [|done].
  simpl. apply Forall_app. split; [done|].
  apply Forall_singleton, trim_idemp.
Qed.

Lemma top_comma_free_sound s : ∀ d,
  top_comma_free d s = true →
  ∀ s1 s2, s = s1 ++ comma :: s2 → (d + bracket_depth s1)%Z ≠ 0%Z.
Proof.
  induction s as [|c s IH]; intros d Hb s1 s2 E.
  { by destruct s1. }
  simpl in Hb. apply andb_true_iff in Hb as [Hc Hs].
  destruct s1 as [|c1 s1]; simplify_eq/=.
  - rewrite ?N.eqb_refl in Hc. simpl in Hc.
    apply negb_true_iff in Hc. apply Z.eqb_neq in Hc. lia.
  - specialize (IH _ Hs s1 s2 eq_refl). lia.
Qed.

Lemma top_comma_free_spec s : top_comma_free 0 s = true → no_top_comma s.
Proof.
  intros Hb s1 s2 E.
  pose proof (top_comma_free_sound s 0 Hb s1 s2 E). lia.
Qed.

(** X11. A text in which no comma stands at bracket depth zero is one
    argument, its trimmed text, or none when it is blank.  The depth
    counts brackets of all three kinds together and is not reset when it
    drops below zero. *)
Theorem processArgs_no_top_comma s :
  no_top_comma s →
  processArgs s = match trim s with [] => [] | _ :: _ => [trim s] end.
Proof.
  intros Hs. unfold processArgs.
  rewrite processArgs_loop_copy; [done|].
  intros s1 s2 E. simpl. by apply Hs in E.
Qed.

Lemma processArgs_no_top_comma_witness :
  processArgs (str "a), b, (c") = [str "a), b, (c"].
Proof.
  rewrite processArgs_no_top_comma; [reflexivity|].
  apply top_comma_free_spec. reflexivity.
Defined.

Lemma processArgs_step_comma r cur :
  processArgs_step
    {| result := r; currentArg := cur; parenDepth := 0 |} comma =
  {| result := r ++ [trim cur]; currentArg := []; parenDepth := 0 |}.
Proof. reflexivity. Qed.

(** X12. The first comma at bracket depth zero ends the first argument:
    the text before it, trimmed, is kept even when it is blank, and the
    rest of the text is split on its own. *)
Theorem processArgs_first_top_comma s1 s2 :
  no_top_comma s1 → bracket_depth s1 = 0%Z →
  processArgs (s1 ++ comma :: s2) = trim s1 :: processArgs s2.
Proof.
  intros Hs1 Hd. unfold processArgs, processArgs_loop.
  rewrite foldl_app. fold (processArgs_loop
    {| result := []; currentArg := []; parenDepth := 0 |} s1).
  rewrite (processArgs_loop_copy s1).
  2: { intros a b E. simpl. by apply Hs1 in E. }
  cbn [foldl result currentArg parenDepth app].
  rewrite Hd. change (0 + 0)%Z with 0%Z.
  rewrite processArgs_step_comma.
  fold (processArgs_loop
    {| result := [] ++ [trim s1]; currentArg := []; parenDepth := 0 |} s2).
  rewrite processArgs_loop_result. unfold processArgs_loop.
  cbn [result currentArg parenDepth app].
  by destruct (trim _).
Qed.

Lemma processArgs_first_top_comma_witness :
  processArgs (str " , f(a, b), c") = [] :: processArgs (str " f(a, b), c").
Proof.
  apply (processArgs_first_top_comma (str " ") (str " f(a, b), c")).
  - apply top_comma_free_spec. reflexivity.
  - reflexivity.
Defined.

(** X13. Every argument that is returned is already trimmed: it neither
    starts nor ends with white space. *)
Theorem processArgs_trimmed s :
  Forall (λ a, trim a = a) (processArgs s).
Proof.
  unfold processArgs.
  pose proof (processArgs_loop_trimmed s
    {| result := []; currentArg := []; parenDepth := 0 |} (Forall_nil_2 _))
    as Hres.
  destruct (trim (currentArg _)) eqn:E; [done|].
  apply Forall_app. split; [done|].
  apply Forall_singleton. rewrite <- E. apply trim_idemp.
Qed.

(** ** The expansion history *)

Lemma history_add_filter prev trace :
  history_add prev trace
  = filter (λ historyTrace, id historyTrace ≠ id trace) prev ++ [trace].
Proof.
  unfold history_add.
  destruct (existsb _ prev) eqn:E; [done|].
  f_equal. induction prev as [|t prev IH]; [done|].
  simpl in E. apply orb_false_iff in E as [Ht E].
  apply bool_decide_eq_false in Ht.
  rewrite filter_cons_True by done. f_equal. by apply IH.
Qed.

(** X14. Expanding a node moves it to the end of the history: the next
    history is the previous one without the entries that carry the
    node's id, followed by the node.  A history whose ids are pairwise
    different stays so. *)
Theorem history_stays_duplicate_free prev trace :
  NoDup (id <$> prev) →
  let next := history_add prev trace in
  next = filter (λ t, id t ≠ id trace) prev ++ [trace] ∧
  last next = Some trace ∧
  NoDup (id <$> next).
Proof.
  intros Hnd next. subst next. rewrite history_add_filter.
  split; [done|]. split; [apply last_snoc|].
  rewrite fmap_app. apply NoDup_app. split; [|split].
  - eapply sublist_NoDup; [exact Hnd|].
    apply fmap_sublist, sublist_filter.
  - intros y Hy Hy'. apply list_elem_of_singleton in Hy'. subst y.
    apply list_elem_of_fmap in Hy as (t & E & Ht).
    apply list_elem_of_filter in Ht as [Hne _]. by rewrite E in Hne.
  - apply NoDup_singleton.
Qed.

Lemma history_stays_duplicate_free_witness :
  ∃ t, head example1_heap = Some t ∧
       last (history_add example1_heap t) = Some t ∧
       NoDup (id <$> history_add example1_heap t).
Proof.
  assert (NoDup (id <$> example1_heap)) as Hnd.
  { apply (bool_decide_unpack _). vm_compute. exact I. }
  destruct (head example1_heap) as [t|] eqn:E; [|by vm_compute in E].
  exists t. split; [done|].
  destruct (history_stays_duplicate_free example1_heap t Hnd) as (_ & ? & ?).
  done.
Defined.

(** ** Colouring keeps the text *)

Lemma split_go_nonempty sep : ∀ s k cur, split_go sep k cur s ≠ [].
Proof.
  induction s as [|c s IH]; intros k cur; [done|]. simpl.
  destruct k; [|apply IH]. destruct (starts_with sep (c :: s)); [done|].
  apply IH.
Qed.

Lemma split_go_skip sep : ∀ s k cur,
  k ≤ length s → split_go sep k cur s = split_go sep 0 cur (drop k s).
Proof.
  induction s as [|c s IH]; intros k cur Hk.
  { by destruct k. }
  destruct k as [|k]; [done|]. simpl in *. apply IH. lia.
Qed.

Lemma join_cons sep x parts :
  parts ≠ [] → join sep (x :: parts) = x ++ sep ++ join sep parts.
Proof. by destruct parts. Qed.

(** Joining the pieces with the separator gives the text back. *)
Lemma join_split_go sep n : ∀ s cur,
  sep ≠ [] → length s ≤ n →
  join sep (split_go sep 0 cur s) = cur ++ s.
Proof.
  induction n as [|n IH]; intros s cur Hsep Hn.
  { destruct s; [|simpl in Hn; lia]. simpl. by rewrite app_nil_r. }
  revert cur. induction s as [|c s IHs]; intros cur.
  { simpl. by rewrite app_nil_r. }
  simpl in Hn. cbn [split_go].
  destruct (starts_with sep (c :: s)) eqn:Hst.
  - apply starts_with_spec in Hst as [r Hr].
    destruct sep as [|c0 sep']; [done|].
    simpl in Hr. injection Hr as -> ->.
    rewrite join_cons by apply split_go_nonempty.
    cbn [length]. rewrite Nat.sub_succ, Nat.sub_0_r.
    rewrite split_go_skip by (rewrite length_app; lia).
    rewrite drop_app_length. rewrite IH; [done | done |].
    rewrite length_app in Hn. lia.
  - rewrite IHs by lia. by rewrite <- app_assoc.
Qed.

Lemma join_split sep s : sep ≠ [] → join sep (split sep s) = s.
Proof. intros Hsep. by apply (join_split_go sep (length s)). Qed.

(** A text that holds the separator is cut into two pieces or more. *)
Lemma split_go_two sep : ∀ s cur,
  sep ≠ [] → contains s sep →
  ∃ x y parts, split_go sep 0 cur s = x :: y :: parts.
Proof.
  induction s as [|c s IH]; intros cur Hsep (l & r & E).
  { destruct l, sep; simplify_eq/=. }
  cbn [split_go]. destruct (starts_with sep (c :: s)) eqn:Hst.
  - destruct (split_go sep (length sep - 1) [] s) as [|y parts] eqn:Hs.
    { by apply split_go_nonempty in Hs. }
    by exists cur, y, parts.
  - destruct l as [|c' l].
    { assert (starts_with sep (c :: s) = true) as Hst'
        by (apply starts_with_spec; exists r; by rewrite E).
      congruence. }
    simplify_eq/=. apply IH; [done|]. by exists l, r.
Qed.

Lemma head_sep_tail sep s :
  sep ≠ [] → contains s sep →
  (hd [] (split sep s) ++ sep) ++ join sep (tail (split sep s)) = s.
Proof.
  intros Hsep Hc.
  rewrite <- (join_split sep s Hsep) at 3.
  destruct (split_go_two sep s [] Hsep Hc) as (x & y & parts & E).
  unfold split. rewrite E. cbn [hd tail].
  rewrite (join_cons sep x (y :: parts)) by done. by rewrite <- app_assoc.
Qed.

Lemma contains_suffix s l p : contains s (l ++ p) → contains s p.
Proof.
  intros (a & b & ->). exists (a ++ l), b. by rewrite <- !app_assoc.
Qed.

(** X15. Colouring a return line or an event line changes no character:
    the texts of the spans, read one after the other, are the content. *)
Theorem highlight_keeps_text content spans :
  highlightSyntax_spans content = Some spans →
  concat (span_text <$> spans) = content.
Proof.
  unfold highlightSyntax_spans. intros H.
  destruct (includes content corner_arrow || includes content bar_corner_arrow
            || includes content tee_arrow) eqn:Hret.
  - simplify_eq. cbn [fmap list_fmap concat createSpan span_text].
    rewrite app_nil_r.
    apply head_sep_tail; [done|].
    apply orb_true_iff in Hret as [Hret|Hret];
      [apply orb_true_iff in Hret as [Hret|Hret]|];
      apply includes_spec in Hret.
    + by apply (contains_suffix _ [glyph_corner; glyph_dash; 32%N]).
    + by apply (contains_suffix _ [glyph_bar; 32%N; 32%N; 32%N;
                                   glyph_corner; glyph_dash; 32%N]).
    + by apply (contains_suffix _ [glyph_tee; glyph_dash; 32%N]).
  - destruct (includes content (str "emit ")) eqn:Hemit; [|done].
    simplify_eq. cbn [fmap list_fmap concat createSpan span_text].
    rewrite app_nil_r.
    apply head_sep_tail; [done|]. by apply includes_spec.
Qed.

Lemma highlight_keeps_text_witness :
  let content := tee_arrow ++ str " [Return] emit 1 " ++ [arrow_left] in
  ∃ spans, highlightSyntax_spans content = Some spans ∧
           concat (span_text <$> spans) = content.
Proof.
  intros content.
  destruct (highlightSyntax_spans content) as [spans|] eqn:E;
    [|by vm_compute in E].
  exists spans. split; [done|].
  exact (highlight_keeps_text content spans E).
Defined.

(** ** The first section of a document *)



















Lemma grows_edge h h' x y : grows h h' → edge h x y → edge h' x y.
Proof.
  intros Hg (tx & Hx & Hy). destruct (Hg _ _ Hx) as (t' & ? & _ & Hc).
  exists t'. auto.
Qed.

Lemma grows_descendant h h' a n :
  grows h h' → descendant h a n → descendant h' a n.
Proof. intros Hg. apply descendant_mono. intros x y. by apply grows_edge. Qed.






(** ** The two variants of the section loop *)














